(** * PowerMem: search re-ranking, retention model and 64-bit memory ids

    A shallow embedding of
    - [IntelligentMemoryManager.process_search_results] (Python, quoted in
      the Ebbinghaus guide),
    - the retention model and tier classifier (described by the
      specification; their bodies are not part of the sources),
    - [MemoryID.MarshalJSON] / [MemoryID.UnmarshalJSON] (Go client,
      examples/go/models.go),
    - the two id round trips of test_precision.js.

    - the request paths of the Go client (client.go), the caller
      [Memory.search], the legacy configuration mapping and the paging of
      the dashboard's memory table.

    Sections 1 to 4d hold the definitions, sections 5 to 12 the
    properties. *)

From Stdlib Require Import ZArith QArith Qminmax Reals Lia.
From Stdlib Require Lra Lqa.
From Stdlib Require Import String Ascii Sorted Permutation.
From stdpp Require Import gmap strings list sorting.

Set Warnings "-register-all".

(* ===================================================================== *)
(** * 1. The ranking loop of [process_search_results]                     *)
(* ===================================================================== *)

Module Ranking.

Local Open Scope Q_scope.

(** Python values stored in a search hit ([Dict[str, Any]]).  Floats are
    modelled by exact rationals: rounding, infinities and NaN are outside
    the model.  A [datetime] is a number of microseconds. *)
Inductive value : Type :=
  | VNone
  | VBool (b : bool)
  | VStr (s : string)
  | VNum (q : Q)
  | VTime (t : Z).

(** A search hit is a Python dict with string keys. *)
Abbreviation result := (gmap string value).

(** Python exceptions that can leave the loop. *)
Inductive exn : Type :=
  | KeyError (key : string)
  | TypeError
  | Raised (name : string).

(** Computations that either raise or return. *)
Definition py (A : Type) : Type := (exn + A)%type.

Definition ret {A} (a : A) : py A := inr a.
Definition raise {A} (e : exn) : py A := inl e.
Definition bind {A B} (c : py A) (k : A -> py B) : py B :=
  match c with
  | inl e => inl e
  | inr a => k a
  end.

Notation "'do' x <- c ; k" := (bind c (fun x => k))
  (at level 10, x name, c at level 100, k at level 200).

(** ** The builtin [list.sort(key=..., reverse=True)]

    CPython first computes the key of every element, then sorts the
    decorated list; the sort is stable and [reverse=True] keeps the
    original order of elements with equal keys.  The model is a stable
    insertion sort on the decorated list. *)
Section Sort.
Context {A : Type}.

(** [x] comes from an earlier position than every element of [l]: it is
    placed in front of the first element whose key is not larger. *)
Fixpoint insert_desc (x : Q * A) (l : list (Q * A)) : list (Q * A) :=
  match l with
  | [] => [x]
  | y :: l' =>
      if Qle_bool (fst y) (fst x) then x :: y :: l'
      else y :: insert_desc x l'
  end.

Fixpoint sort_desc (l : list (Q * A)) : list (Q * A) :=
  match l with
  | [] => []
  | x :: l' => insert_desc x (sort_desc l')
  end.

Fixpoint decorate (key : A -> py Q) (l : list A) : py (list (Q * A)) :=
  match l with
  | [] => ret []
  | x :: l' =>
      do k <- key x;
      do d <- decorate key l';
      ret ((k, x) :: d)
  end.

Definition list_sort_reverse (key : A -> py Q) (l : list A) : py (list A) :=
  do d <- decorate key l;
  ret (map snd (sort_desc d)).
End Sort.

(** The key [lambda x: x["final_score"]], as a number to sort by.  A
    missing key raises [KeyError]; a value that is not a number is
    reported as [TypeError].  Neither happens on processed hits, which
    all carry a numeric ["final_score"] (lemma [scored_from_carries]). *)
Definition final_score_key (x : result) : py Q :=
  match x !! "final_score"%string with
  | None => raise (KeyError "final_score")
  | Some (VNum q) => ret q
  | Some _ => raise TypeError
  end.

Section Manager.
(** The two methods of [self.ebbinghaus_algorithm] are not part of the
    sources; they are parameters and may raise. *)
Variable calculate_relevance : result -> string -> py Q.
Variable calculate_decay : value -> py Q.
(** [utcnow i] is what [datetime.utcnow()] reads in iteration [i]. *)
Variable utcnow : nat -> Z.

(** [result.get("created_at", datetime.utcnow())] in iteration [i]. *)
Definition decay_argument (i : nat) (r : result) : value :=
  default (VTime (utcnow i)) (r !! "created_at"%string).

(** [result.copy()] followed by the three item assignments. *)
Definition annotate (r : result) (relevance_score decay_factor : Q) : result :=
  <["final_score"%string := VNum (relevance_score * decay_factor)]>
    (<["decay_factor"%string := VNum decay_factor]>
      (<["relevance_score"%string := VNum relevance_score]> r)).

(** The body of the [for] loop for the hit at position [i]. *)
Definition process_one (i : nat) (r : result) (query : string) : py result :=
  do relevance_score <- calculate_relevance r query;
  do decay_factor <- calculate_decay (decay_argument i r);
  ret (annotate r relevance_score decay_factor).

(** The [for] loop, from position [i] on. *)
Fixpoint process_from (i : nat) (results : list result) (query : string)
  : py (list result) :=
  match results with
  | [] => ret []
  | r :: rest =>
      do p <- process_one i r query;
      do ps <- process_from (S i) rest query;
      ret (p :: ps)
  end.

Definition process_search_results (results : list result) (query : string)
  : py (list result) :=
  do processed_results <- process_from 0 results query;
  list_sort_reverse final_score_key processed_results.

(** ** Predicates used to state what the loop does *)

(** Hit [r] at position [i] was scored without an exception and [p] is
    its processed copy. *)
Definition scored_as (query : string) (i : nat) (r p : result) : Prop :=
  exists relevance_score decay_factor,
    calculate_relevance r query = inr relevance_score /\
    calculate_decay (decay_argument i r) = inr decay_factor /\
    p = annotate r relevance_score decay_factor.

(** [ps] are the processed copies of [rs], position by position,
    [rs] starting at position [i]. *)
Fixpoint scored_from (query : string) (i : nat) (rs ps : list result) : Prop :=
  match rs, ps with
  | [], [] => True
  | r :: rs', p :: ps' =>
      scored_as query i r p /\ scored_from query (S i) rs' ps'
  | _, _ => False
  end.

(** Neither helper raises on hit [r] at position [i]. *)
Definition helpers_return (query : string) (i : nat) (r : result) : Prop :=
  exists relevance_score decay_factor,
    calculate_relevance r query = inr relevance_score /\
    calculate_decay (decay_argument i r) = inr decay_factor.

(** Scoring hit [r] at position [i] raises [e]. *)
Definition fails_with (query : string) (i : nat) (r : result) (e : exn) : Prop :=
  calculate_relevance r query = inl e \/
  (exists relevance_score,
      calculate_relevance r query = inr relevance_score /\
      calculate_decay (decay_argument i r) = inl e).

End Manager.

(** ** Reading the output *)

(** The score a processed hit carries (0 if it carries none; processed
    hits always carry one, see [annotate_score]). *)
Definition score_of (x : result) : Q :=
  match x !! "final_score"%string with
  | Some (VNum q) => q
  | _ => 0
  end.

(** Descending order of scores, and the hits of one given score. *)
Definition score_ge (a b : result) : Prop := score_of b <= score_of a.
Definition has_score (s : Q) (x : result) : bool := Qeq_bool (score_of x) s.

(** A hit decorated with its score, as the sort sees it. *)
Definition keyed (x : result) : Q * result := (score_of x, x).

Definition carries_score (x : result) : Prop :=
  exists q, x !! "final_score"%string = Some (VNum q).

(** The same two notions on the decorated list the sort works on. *)
Definition key_ge {A} (a b : Q * A) : Prop := fst b <= fst a.
Definition has_key {A} (s : Q) (p : Q * A) : bool := Qeq_bool (fst p) s.

(** ** Sample helpers and hits for concrete runs

    A relevance that is the similarity the vector search stored under
    ["score"], a decay that halves the score of hits created before time
    100, and a clock that reads 1000, 1001, ... *)
Definition sample_relevance (r : result) (query : string) : py Q :=
  match r !! "score"%string with
  | Some (VNum s) => ret s
  | Some _ => raise TypeError
  | None => raise (KeyError "score")
  end.

Definition sample_decay (created_at : value) : py Q :=
  match created_at with
  | VTime t => ret (if (t <? 100)%Z then 1 # 2 else 1)
  | _ => raise TypeError
  end.

Definition sample_clock (i : nat) : Z := 1000 + Z.of_nat i.

Definition hit (id : Z) (score : Q) (created_at : Z) : result :=
  {[ "id"%string := VNum (inject_Z id);
     "score"%string := VNum score;
     "created_at"%string := VTime created_at ]}.

(** Four hits; the first, third and fourth end up with the same score
    (1/2, 1 * 1/2 and 2/4). *)
Definition sample_hits : list result :=
  [hit 1 (1 # 2) 500; hit 2 (9 # 10) 500; hit 3 1 50; hit 4 (2 # 4) 500].

Definition sample_ranking : list result :=
  [annotate (hit 2 (9 # 10) 500) (9 # 10) 1;
   annotate (hit 1 (1 # 2) 500) (1 # 2) 1;
   annotate (hit 3 1 50) 1 (1 # 2);
   annotate (hit 4 (2 # 4) 500) (2 # 4) 1].

(** A batch whose first hit has similarity 3/2. *)
Definition out_of_range_hits : list result :=
  [hit 1 (3 # 2) 500; hit 2 (1 # 2) 500].

End Ranking.

(* ===================================================================== *)
(** * 2. Retention model and tier classifier                              *)
(* ===================================================================== *)

Module Retention.

Local Open Scope R_scope.

(** Modelled from the spec: the [Config] record of the data model
    ([decay_rate], [initial_retention], [reinforcement_factor] and the
    three tier thresholds); no configuration type is part of the
    sources.  Floats are modelled by real numbers. *)
Record Config : Type := {
  decay_rate : R;
  initial_retention : R;
  reinforcement_factor : R;
  working : R;
  short_term : R;
  long_term : R
}.

(** Modelled from the spec: the conditions under which a [Config] can be
    constructed ([decay_rate > 0], [initial_retention] in (0,1],
    [reinforcement_factor >= 0], ascending thresholds in [0,1]); the
    constructor is not part of the sources. *)
Definition valid_config (c : Config) : Prop :=
  0 < decay_rate c /\
  0 < initial_retention c <= 1 /\
  0 <= reinforcement_factor c /\
  0 <= working c /\ working c <= short_term c /\
  short_term c <= long_term c /\ long_term c <= 1.

(** Modelled from the spec: the reference time of section 4.1
    ([last_reinforced_at] if present, else [created_at]); the body of
    [calculate_decay] is not part of the sources.  Times are in days. *)
Definition reference_time (created_at : R) (last_reinforced_at : option R) : R :=
  match last_reinforced_at with
  | Some t => t
  | None => created_at
  end.

(** Modelled from the spec: [age_days = max(0, now - reference_time)] of
    section 4.1; the body of [calculate_decay] is not part of the
    sources. *)
Definition age_days (now reference : R) : R := Rmax 0 (now - reference).

(** Modelled from the spec: the effective decay rate of section 4.1,
    [decay_rate / (1 + reinforcement_factor * access_count)]; the body of
    [calculate_decay] is not part of the sources. *)
Definition effective_decay_rate (c : Config) (access_count : nat) : R :=
  decay_rate c / (1 + reinforcement_factor c * INR access_count).

(** Modelled from the spec: clamping to an interval, as used by the
    retention formula of section 4.1; not part of the sources. *)
Definition clamp (lo hi x : R) : R := Rmax lo (Rmin hi x).

(** Modelled from the spec: the retention formula of section 4.1 as a
    function of the age,
    [initial_retention * exp(- effective_decay_rate * age_days)] clamped
    to [[0, initial_retention]]; the body of [calculate_decay] is not
    part of the sources. *)
Definition retention_at (c : Config) (access_count : nat) (age : R) : R :=
  clamp 0 (initial_retention c)
    (initial_retention c * exp (- effective_decay_rate c access_count * age)).

(** Modelled from the spec: the operation
    [decay(created_at, last_reinforced_at, access_count, now, config)] of
    section 4.1; the body of [calculate_decay] is not part of the
    sources. *)
Definition decay (created_at : R) (last_reinforced_at : option R)
    (access_count : nat) (now : R) (c : Config) : R :=
  retention_at c access_count
    (age_days now (reference_time created_at last_reinforced_at)).

(** Modelled from the spec: the closed tier type of section 4.3; not part
    of the sources. *)
Inductive tier : Type := LongTerm | ShortTerm | Working | Forgotten.

(** Modelled from the spec: the operation [classify(retention, config)]
    of section 4.3; the classifier is not part of the sources. *)
Definition classify (retention : R) (c : Config) : tier :=
  if Rle_dec (long_term c) retention then LongTerm
  else if Rle_dec (short_term c) retention then ShortTerm
  else if Rle_dec (working c) retention then Working
  else Forgotten.

(** The configuration of the specification's numeric example, with the
    thresholds of its classifier example. *)
Definition sample_config : Config := {|
  decay_rate := 1 / 10;
  initial_retention := 1;
  reinforcement_factor := 3 / 10;
  working := 3 / 10;
  short_term := 6 / 10;
  long_term := 8 / 10
|}.

End Retention.

(* ===================================================================== *)
(** * 3. Memory ids in the Go client (examples/go/models.go)              *)
(* ===================================================================== *)

Module GoClient.

Local Open Scope string_scope.
Local Open Scope Z_scope.

(** A JSON value as [encoding/json] scans it.  A number keeps its literal
    text, a string its decoded content. *)
Inductive json : Type :=
  | JNull
  | JBool (b : bool)
  | JNumber (literal : string)
  | JString (s : string)
  | JArray (elems : list json)
  | JObject (fields : list (string * json)).

(** The [data []byte] argument: bytes that are not valid JSON, or the
    value the bytes denote. *)
Inductive document : Type :=
  | Malformed
  | Doc (v : json).

(** Go errors that occur here: [*json.SyntaxError],
    [*json.UnmarshalTypeError], and [*strconv.NumError] wrapping
    [strconv.ErrSyntax] or [strconv.ErrRange]. *)
Inductive error : Type :=
  | SyntaxError
  | UnmarshalTypeError
  | ErrSyntax
  | ErrRange.

(** [type MemoryID int64] *)
Definition MemoryID : Type := Z.

Definition minInt64 : Z := - 2 ^ 63.
Definition maxInt64 : Z := 2 ^ 63 - 1.
Definition maxUint64 : Z := 2 ^ 64 - 1.

Definition is_int64 (z : Z) : Prop := minInt64 <= z <= maxInt64.

(** ** [strconv.ParseInt(s, 10, 64)] *)

Definition digit_of (c : ascii) : option Z :=
  let n := Z.of_N (N_of_ascii c) in
  if (48 <=? n) && (n <=? 57) then Some (n - 48) else None.

(** The digit loop of [strconv.ParseUint] for base 10 and 64 bits. *)
Fixpoint ParseUint_loop (n : Z) (s : string) : error + Z :=
  match s with
  | EmptyString => inr n
  | String c s' =>
      match digit_of c with
      | None => inl ErrSyntax
      | Some d =>
          if maxUint64 / 10 + 1 <=? n then inl ErrRange
          else
            let n1 := n * 10 + d in
            if maxUint64 <? n1 then inl ErrRange
            else ParseUint_loop n1 s'
      end
  end.

Definition ParseUint (s : string) : error + Z :=
  match s with
  | EmptyString => inl ErrSyntax
  | _ => ParseUint_loop 0 s
  end.

Definition ParseInt (s : string) : error + Z :=
  match s with
  | EmptyString => inl ErrSyntax
  | String c s' =>
      let '(neg, s0) :=
        if Ascii.eqb c "+" then (false, s')
        else if Ascii.eqb c "-" then (true, s')
        else (false, s) in
      match ParseUint s0 with
      | inl e => inl e
      | inr un =>
          let cutoff := 2 ^ 63 in
          if negb neg && (cutoff <=? un) then inl ErrRange
          else if neg && (cutoff <? un) then inl ErrRange
          else inr (if neg then - un else un)
      end
  end.

(** The first byte of [s] is a decimal digit. *)
Definition starts_with_digit (s : string) : Prop :=
  match s with
  | EmptyString => False
  | String c _ => exists d, digit_of c = Some d
  end.

(** ** [strconv.FormatInt(i, 10)] *)

Definition digit_char (d : Z) : ascii := ascii_of_N (Z.to_N (48 + d)).

(** The decimal digits of [n], most significant first, in front of
    [acc]; [fuel] bounds the number of digits. *)
Fixpoint format_digits (fuel : nat) (n : Z) (acc : string) : string :=
  match fuel with
  | O => acc
  | S fuel' =>
      let acc' := String (digit_char (n mod 10)) acc in
      if n <? 10 then acc' else format_digits fuel' (n / 10) acc'
  end.

Definition FormatUint (n : Z) : string := format_digits 20 n EmptyString.

Definition FormatInt (i : Z) : string :=
  if i <? 0 then String "-" (FormatUint (- i)) else FormatUint i.

(** ** [json.Unmarshal(data, &n)] with [var n int64] and
       [json.Unmarshal(data, &s)] with [var s string]

    The second argument is the value of the variable before the call: a
    JSON [null] leaves it as it is and reports no error. *)
Definition Unmarshal_int64 (data : document) (n : Z) : error + Z :=
  match data with
  | Malformed => inl SyntaxError
  | Doc JNull => inr n
  | Doc (JNumber lit) =>
      match ParseInt lit with
      | inr z => inr z
      | inl _ => inl UnmarshalTypeError
      end
  | Doc _ => inl UnmarshalTypeError
  end.

Definition Unmarshal_string (data : document) (s : string) : error + string :=
  match data with
  | Malformed => inl SyntaxError
  | Doc JNull => inr s
  | Doc (JString s') => inr s'
  | Doc _ => inl UnmarshalTypeError
  end.

(** ** The methods of [MemoryID] *)

(** [json.Marshal(int64(m))]: the decimal digits, as a JSON number. *)
Definition MarshalJSON (m : MemoryID) : document * option error :=
  (Doc (JNumber (FormatInt m)), None).

(** [UnmarshalJSON] returns the new value of [*m] and the error. *)
Definition UnmarshalJSON (m : MemoryID) (data : document)
  : MemoryID * option error :=
  match Unmarshal_int64 data 0 with
  | inr n => (n, None)
  | inl _ =>
      match Unmarshal_string data "" with
      | inr s =>
          match ParseInt s with
          | inl err => (m, Some err)
          | inr n => (n, None)
          end
      | inl _ => (m, None)
      end
  end.

(** [String()] *)
Definition String_ (m : MemoryID) : string := FormatInt m.

(** [Int64()] *)
Definition Int64 (m : MemoryID) : Z := m.

End GoClient.

(* ===================================================================== *)
(** * 4. Ids as JavaScript numbers (test_precision.js)                    *)
(* ===================================================================== *)

Module Precision.
Import GoClient.

Local Open Scope string_scope.
Local Open Scope Z_scope.

(** ** A JSON number read by [JSON.parse]

    JavaScript numbers are IEEE doubles: an integer literal becomes the
    nearest integer with a 53-bit significand, ties to even.  Ids are
    far below the overflow threshold of doubles. *)
Definition nearest_double (z : Z) : Z :=
  let a := Z.abs z in
  if a <? 2 ^ 53 then z
  else
    let e := Z.log2 a - 52 in
    let q := a / 2 ^ e in
    let r := a mod 2 ^ e in
    let half := 2 ^ (e - 1) in
    let q' := if (half <? r) || ((r =? half) && Z.odd q) then q + 1 else q in
    Z.sgn z * (q' * 2 ^ e).

(** The mathematical value of a literal made of digits only. *)
Fixpoint digits_value (n : Z) (s : string) : option Z :=
  match s with
  | EmptyString => Some n
  | String c s' =>
      match digit_of c with
      | None => None
      | Some d => digits_value (n * 10 + d) s'
      end
  end.

Definition integer_literal (lit : string) : option Z :=
  match lit with
  | EmptyString => None
  | String c s' =>
      if Ascii.eqb c "-" then
        match s' with
        | EmptyString => None
        | _ => Z.opp <$> digits_value 0 s'
        end
      else digits_value 0 lit
  end.

(** [JSON.parse] of a document that is an integer literal ([None]: the
    document is something else). *)
Definition JSON_parse_number (data : document) : option Z :=
  match data with
  | Doc (JNumber lit) => nearest_double <$> integer_literal lit
  | _ => None
  end.

(** ** [Number.prototype.toString] on an integer below 10^21

    The result has the fewest significant digits that still read back as
    the same double, followed by zeros; among the candidates of that
    length the closest one is taken (the even one on a tie). *)
Definition shortest_at (x p : Z) : option Z :=
  let lo := x / p * p in
  let hi := lo + p in
  match nearest_double lo =? x, nearest_double hi =? x with
  | true, true =>
      if x - lo <? hi - x then Some lo
      else if hi - x <? x - lo then Some hi
      else Some (if Z.even (x / p) then lo else hi)
  | true, false => Some lo
  | false, true => Some hi
  | false, false => None
  end.

(** Tries 1, 2, ... significant digits: [p] is the weight of the last
    significant digit. *)
Fixpoint shortest_from (fuel : nat) (x p : Z) : Z :=
  match fuel with
  | O => x
  | S fuel' =>
      match shortest_at x p with
      | Some c => c
      | None => if p <=? 1 then x else shortest_from fuel' x (p / 10)
      end
  end.

Definition Number_toString (x : Z) : string :=
  let a := Z.abs x in
  let n := String.length (FormatUint a) in
  let digits := FormatUint (shortest_from n a (10 ^ (Z.of_nat n - 1))) in
  if x <? 0 then String "-" digits else digits.

(** Test 1 of the script: the id goes into the JSON text as a number,
    through [JSON.parse], and back to text with [toString()]. *)
Definition id_through_number (id : string) : option string :=
  Number_toString <$> JSON_parse_number (Doc (JNumber id)).

(** [JSON.parse] of a document that is a string. *)
Definition JSON_parse_string (data : document) : option string :=
  match data with
  | Doc (JString s) => Some s
  | _ => None
  end.

(** Test 2 of the script: the id goes into the JSON text as a string and
    [JSON.parse] returns that string. *)
Definition id_through_string (id : string) : option string :=
  JSON_parse_string (Doc (JString id)).

End Precision.

(* ===================================================================== *)
(** * 4b. Request paths of the Go client (client.go)                      *)
(* ===================================================================== *)

Module GoRequests.
Import GoClient Precision.

Local Open Scope string_scope.
Local Open Scope Z_scope.

(** [url.Values] as the client uses it: only [Set] is called, so every
    key holds one value. *)
Abbreviation Values := (gmap string string).

(** [if v != "" { params.Set(k, v) }] *)
Definition set_nonempty (k v : string) (params : Values) : Values :=
  if decide (v = "") then params else <[k := v]> params.

(** [if n > 0 { params.Set(k, strconv.Itoa(n)) }]; [strconv.Itoa(n)] is
    [FormatInt(int64(n), 10)]. *)
Definition set_positive (k : string) (n : Z) (params : Values) : Values :=
  if 0 <? n then <[k := FormatInt n]> params else params.

(** [ListMemoriesParams] (models.go) and its default. *)
Record ListMemoriesParams : Type := {
  UserID : string;
  AgentID : string;
  Limit : Z;
  Offset : Z;
  SortBy : string;
  Order : string
}.

Definition DefaultListParams : ListMemoriesParams := {|
  UserID := "";
  AgentID := "";
  Limit := 100;
  Offset := 0;
  SortBy := "";
  Order := "desc"
|}.

(** The query parameters [ListMemories] builds. *)
Definition ListMemories_query (params : ListMemoriesParams) : Values :=
  set_nonempty "order" (Order params)
    (set_nonempty "sort_by" (SortBy params)
      (set_positive "offset" (Offset params)
        (set_positive "limit" (Limit params)
          (set_nonempty "agent_id" (AgentID params)
            (set_nonempty "user_id" (UserID params) ∅))))).

(** The query parameters of [GetMemory] and [DeleteMemory]. *)
Definition memory_query (userID agentID : string) : Values :=
  set_nonempty "agent_id" agentID (set_nonempty "user_id" userID ∅).

(** The query parameters of [GetUserMemories]. *)
Definition GetUserMemories_query (limit offset : Z) : Values :=
  set_positive "offset" offset (set_positive "limit" limit ∅).

Inductive method : Type := MethodGet | MethodPost | MethodPut | MethodDelete.

Section Paths.
(** [url.Values.Encode] belongs to the Go library; the paths are stated
    for any such function. *)
Variable Encode : Values -> string.

(** [if len(params) > 0 { path += "?" + params.Encode() }] *)
Definition with_query (path : string) (params : Values) : string :=
  if decide (0 < size params)%nat then path +:+ "?" +:+ Encode params
  else path.

(** [fmt.Sprintf("/api/v1/memories/%s", memoryID.String())] *)
Definition memory_path (memoryID : MemoryID) : string :=
  "/api/v1/memories/" +:+ String_ memoryID.

(** Method and path each call hands to [doRequest]. *)
Definition GetMemory_request (memoryID : MemoryID) (userID agentID : string)
  : method * string :=
  (MethodGet, with_query (memory_path memoryID) (memory_query userID agentID)).

Definition UpdateMemory_request (memoryID : MemoryID) : method * string :=
  (MethodPut, memory_path memoryID).

Definition DeleteMemory_request (memoryID : MemoryID) (userID agentID : string)
  : method * string :=
  (MethodDelete,
   with_query (memory_path memoryID) (memory_query userID agentID)).

Definition ListMemories_request (params : ListMemoriesParams)
  : method * string :=
  (MethodGet, with_query "/api/v1/memories" (ListMemories_query params)).

Definition GetUserMemories_request (userID : string) (limit offset : Z)
  : method * string :=
  (MethodGet,
   with_query ("/api/v1/users/" +:+ userID +:+ "/memories")
     (GetUserMemories_query limit offset)).
End Paths.

(** A stand-in for [Encode] in concrete runs: the user id only. *)
Definition sample_Encode (params : Values) : string :=
  "user_id=" +:+ default "" (params !! "user_id").

(** [path] is the path of memory [memoryID], possibly followed by a
    query string. *)
Definition addresses (path : string) (memoryID : MemoryID) : Prop :=
  exists tail,
    path = memory_path memoryID +:+ tail /\
    (tail = "" \/ exists query, tail = "?" +:+ query).

(** Byte [x] does not occur in [s]. *)
Fixpoint lacks (x : ascii) (s : string) : Prop :=
  match s with
  | EmptyString => True
  | String c s' => c <> x /\ lacks x s'
  end.

(** ** Decimal strings *)

Definition is_digit (c : ascii) : bool :=
  match digit_of c with Some _ => true | None => false end.

Fixpoint all_digits (s : string) : bool :=
  match s with
  | EmptyString => true
  | String c s' => is_digit c && all_digits s'
  end.

(** Digits without a leading zero, or the single digit 0. *)
Definition canonical_digits (s : string) : bool :=
  match s with
  | EmptyString => false
  | String c EmptyString => is_digit c
  | String c s' => is_digit c && negb (Ascii.eqb c "0") && all_digits s'
  end.

(** The integer literals of the JSON grammar (an optional minus sign,
    then 0 or a non-zero digit followed by digits), minus zero apart. *)
Definition canonical_decimal (s : string) : bool :=
  match s with
  | String "-" s' => canonical_digits s' && negb (String.eqb s' "0")
  | _ => canonical_digits s
  end.

(** The value of an optional sign followed by digits, without bound
    ([None]: not of this form). *)
Definition signed_decimal (s : string) : option Z :=
  match s with
  | EmptyString => None
  | String c s' =>
      if Ascii.eqb c "+" then
        match s' with EmptyString => None | _ => digits_value 0 s' end
      else if Ascii.eqb c "-" then
        match s' with
        | EmptyString => None
        | _ => Z.opp <$> digits_value 0 s'
        end
      else digits_value 0 s
  end.

End GoRequests.

(* ===================================================================== *)
(** * 4c. The caller of the ranking and the legacy configuration          *)
(* ===================================================================== *)

Module Search.
Import Ranking.

Local Open Scope string_scope.

(** The dict [{"results": processed_results}] that [Memory.search]
    returns. *)
Record search_response : Type := { results : list result }.

Section Memory.
Variable calculate_relevance : result -> string -> py Q.
Variable calculate_decay : value -> py Q.
Variable utcnow : nat -> Z.
(** The vector search that the guide elides; it may raise. *)
Variable vector_search : string -> py (list result).
(** [self.intelligence.enabled] *)
Variable enabled : bool.

Definition search (query : string) : py search_response :=
  do results <- vector_search query;
  do processed_results <-
    (if enabled
     then process_search_results calculate_relevance calculate_decay utcnow
            results query
     else ret results);
  ret {| results := processed_results |}.
End Memory.

(** The three keys the ranking writes. *)
Definition score_keys : list string :=
  ["relevance_score"; "decay_factor"; "final_score"].

(** [p] is [r] with at most the three score keys changed. *)
Definition same_fields (r p : result) : Prop :=
  forall k, k ∉ score_keys -> p !! k = r !! k.


(** ** The mapping of the legacy [MEMORY_DECAY_*] variables *)

(** [os.getenv(name, default)] on an environment. *)
Definition getenv (env : gmap string string) (name default_ : string) : string :=
  default default_ (env !! name).

(** [str.lower()] on ASCII text; other bytes are left alone. *)
Definition lower_char (c : ascii) : ascii :=
  let n := N_of_ascii c in
  if ((65 <=? n) && (n <=? 90))%N then ascii_of_N (n + 32) else c.

Fixpoint lower (s : string) : string :=
  match s with
  | EmptyString => EmptyString
  | String c s' => String (lower_char c) (lower s')
  end.

(** The inner dict under ["intelligent_memory"]. *)
Record intelligent_memory : Type := {
  enabled_ : bool;
  decay_rate : Q;
  initial_retention : Q;
  reinforcement_factor : Q
}.

Section Legacy.
(** The builtin [float(str)]; it raises [ValueError] on text that is not
    a number. *)
Variable float : string -> py Q.

Definition legacy_config (env : gmap string string) : py intelligent_memory :=
  let enabled :=
    String.eqb (lower (getenv env "MEMORY_DECAY_ENABLED" "true")) "true" in
  do decay_rate <- float (getenv env "MEMORY_DECAY_FORGETTING_RATE" "0.1");
  do initial_retention <- float (getenv env "MEMORY_DECAY_BASE_RETENTION" "1.0");
  do reinforcement_factor <-
    float (getenv env "MEMORY_DECAY_REINFORCEMENT_FACTOR" "0.3");
  ret {| enabled_ := enabled;
         decay_rate := decay_rate;
         initial_retention := initial_retention;
         reinforcement_factor := reinforcement_factor |}.
End Legacy.

(** The sixteen spellings of "true" in upper and lower case. *)
Definition spells_true (v : string) : Prop :=
  exists c1 c2 c3 c4 : ascii,
    v = String c1 (String c2 (String c3 (String c4 EmptyString))) /\
    (c1 = "t" \/ c1 = "T")%char /\ (c2 = "r" \/ c2 = "R")%char /\
    (c3 = "u" \/ c3 = "U")%char /\ (c4 = "e" \/ c4 = "E")%char.

(** A [float] for the three default texts. *)
Definition sample_float (s : string) : py Q :=
  if String.eqb s "0.1" then ret (1 # 10)
  else if String.eqb s "1.0" then ret 1%Q
  else if String.eqb s "0.3" then ret (3 # 10)
  else raise (Raised "ValueError").

End Search.

(* ===================================================================== *)
(** * 4d. Paging of the dashboard's memory table (routes/memories.tsx)    *)
(* ===================================================================== *)

Module Dashboard.

Local Open Scope Z_scope.

(** Page numbers and row counts are JavaScript numbers holding integers
    far below 2^53, where the arithmetic used here is exact; they are
    modelled by [Z].  [Math.ceil(total / LIMIT)] is the ceiling of the
    exact quotient. *)
Definition LIMIT : Z := 20.

(** [(search.page as number) || 1]: an absent or zero page becomes 1. *)
Definition validate_page (page : option Z) : Z :=
  match page with
  | None => 1
  | Some n => if n =? 0 then 1 else n
  end.

(** [offset: (page - 1) * LIMIT] *)
Definition offset (page : Z) : Z := (page - 1) * LIMIT.

(** [data?.total || 0] *)
Definition total_of (data_total : option Z) : Z :=
  match data_total with
  | None => 0
  | Some n => n
  end.

(** [Math.ceil(total / LIMIT)] *)
Definition totalPages (total : Z) : Z := (total + (LIMIT - 1)) / LIMIT.

(** [disabled={page <= 1}] and [disabled={page >= totalPages}] *)
Definition prev_disabled (page : Z) : bool := page <=? 1.
Definition next_disabled (page total : Z) : bool := totalPages total <=? page.

(** Row [i] (counted from 0) is on page [page]. *)
Definition on_page (page i : Z) : Prop :=
  offset page <= i < offset page + LIMIT.

End Dashboard.

(* ===================================================================== *)
(** * 5. Properties of the ranking loop                                   *)
(* ===================================================================== *)

Module RankingFacts.
Import Ranking Lqa.

Local Open Scope Q_scope.

(** ** The sort *)

Section SortFacts.
Context {A : Type}.
Implicit Types (x : Q * A) (l : list (Q * A)).

Lemma insert_desc_perm x l : Permutation (insert_desc x l) (x :: l).
Proof.
  induction l as [|y l IH]; simpl; [reflexivity|].
  destruct (Qle_bool (fst y) (fst x)); [reflexivity|].
  rewrite IH. apply perm_swap.
Qed.

Lemma sort_desc_perm l : Permutation (sort_desc l) l.
Proof.
  induction l as [|x l IH]; simpl; [reflexivity|].
  rewrite insert_desc_perm. by constructor.
Qed.

Lemma insert_desc_sorted x l :
  StronglySorted key_ge l -> StronglySorted key_ge (insert_desc x l).
Proof.
  induction 1 as [|y l Hs IH Hy]; simpl.
  - repeat constructor.
  - destruct (Qle_bool (fst y) (fst x)) eqn:E.
    + apply Qle_bool_iff in E.
      constructor; [by constructor|].
      constructor; [exact E|].
      eapply Forall_impl; [exact Hy|].
      intros z Hz. unfold key_ge in *. by apply Qle_trans with (fst y).
    + assert (fst x < fst y) as Hlt.
      { apply Qnot_le_lt. intros H. apply Qle_bool_iff in H. congruence. }
      constructor; [exact IH|].
      rewrite (Forall_forall (key_ge y)). intros z Hz.
      rewrite (insert_desc_perm x l) in Hz.
      apply elem_of_cons in Hz as [->|Hz].
      * by apply Qlt_le_weak.
      * rewrite Forall_forall in Hy. by apply Hy.
Qed.

Lemma sort_desc_sorted l : StronglySorted key_ge (sort_desc l).
Proof.
  induction l as [|x l IH]; simpl; [constructor|].
  by apply insert_desc_sorted.
Qed.

(** Stability: inserting [x] never moves it behind an element of the
    same key, so the sub-list of every key keeps its order. *)
Lemma insert_desc_stable s x l :
  List.filter (has_key s) (insert_desc x l) = List.filter (has_key s) (x :: l).
Proof.
  induction l as [|y l IH]; [reflexivity|].
  cbn [insert_desc]. destruct (Qle_bool (fst y) (fst x)) eqn:E; [reflexivity|].
  cbn [List.filter] in *. rewrite IH.
  destruct (has_key s x) eqn:Hx, (has_key s y) eqn:Hy; try reflexivity.
  exfalso. unfold has_key in *.
  apply Qeq_bool_iff in Hx, Hy.
  assert (Qle_bool (fst y) (fst x) = true); [|congruence].
  apply Qle_bool_iff. rewrite Hx, Hy. apply Qle_refl.
Qed.

Lemma sort_desc_stable s l :
  List.filter (has_key s) (sort_desc l) = List.filter (has_key s) l.
Proof.
  induction l as [|x l IH]; [reflexivity|].
  cbn [sort_desc]. rewrite insert_desc_stable. cbn [List.filter].
  by rewrite IH.
Qed.
End SortFacts.

Section ListFilter.
Context {A : Type} (f : A -> bool).

Lemma sublist_List_filter (l1 l2 : list A) :
  l1 `sublist_of` l2 -> List.filter f l1 `sublist_of` List.filter f l2.
Proof.
  induction 1 as [|x l1 l2 _ IH|x l1 l2 _ IH]; simpl.
  - constructor.
  - destruct (f x); [by constructor|done].
  - destruct (f x); [by constructor|done].
Qed.

Lemma List_filter_sublist (l : list A) : List.filter f l `sublist_of` l.
Proof.
  induction l as [|x l IH]; simpl; [constructor|].
  destruct (f x); by constructor.
Qed.

Lemma List_filter_map_snd {K} (g : K * A -> bool) (d : list (K * A)) :
  Forall (fun p => g p = f (snd p)) d ->
  map snd (List.filter g d) = List.filter f (map snd d).
Proof.
  induction 1 as [|p d Hp _ IH]; simpl; [done|].
  rewrite Hp. destruct (f (snd p)); simpl; by rewrite IH.
Qed.
End ListFilter.

(** ** Sorting processed hits by their score *)

Lemma final_score_key_carries x :
  carries_score x -> final_score_key x = inr (score_of x).
Proof. intros [q Hq]. unfold final_score_key, score_of. by rewrite Hq. Qed.

Lemma decorate_carries (l : list result) :
  Forall carries_score l -> decorate final_score_key l = inr (map keyed l).
Proof.
  induction 1 as [|x l Hx _ IH]; [done|].
  cbn [decorate]. rewrite (final_score_key_carries x Hx). cbn [bind].
  by rewrite IH.
Qed.

Lemma sorted_map_snd (d : list (Q * result)) :
  Forall (fun p => fst p = score_of (snd p)) d ->
  StronglySorted key_ge d -> StronglySorted score_ge (map snd d).
Proof.
  intros Hkeys Hs. induction Hs as [|p d Hs IH Hp]; [constructor|].
  apply Forall_cons in Hkeys as [Hk Hkeys].
  cbn [map]. constructor; [by apply IH|].
  apply Forall_map.
  rewrite Forall_forall in Hp, Hkeys. apply Forall_forall. intros z Hz.
  unfold score_ge. cbn. rewrite <- Hk, <- (Hkeys z Hz). by apply Hp.
Qed.

Lemma sort_keyed_spec (l : list result) :
  let out := map snd (sort_desc (map keyed l)) in
  Permutation out l /\
  StronglySorted score_ge out /\
  forall s, List.filter (has_score s) out = List.filter (has_score s) l.
Proof.
  intros out. subst out.
  assert (map snd (map keyed l) = l) as Hid.
  { rewrite map_map. apply map_id. }
  pose proof (sort_desc_perm (map keyed l)) as Hperm.
  assert (Forall (fun p => fst p = score_of (snd p)) (sort_desc (map keyed l)))
    as Hkeys.
  { rewrite Hperm. by apply Forall_map, Forall_true. }
  split; [|split].
  - rewrite <- Hid at 2. by apply Permutation_map.
  - by apply sorted_map_snd, sort_desc_sorted.
  - intros s.
    rewrite <- (List_filter_map_snd (has_score s) (has_key s)).
    + rewrite sort_desc_stable.
      rewrite (List_filter_map_snd (has_score s) (has_key s)); [by rewrite Hid|].
      by apply Forall_map, Forall_true.
    + eapply Forall_impl; [exact Hkeys|].
      intros p Hp. unfold has_key, has_score. by rewrite Hp.
Qed.

Section ManagerFacts.
Variable calculate_relevance : result -> string -> py Q.
Variable calculate_decay : value -> py Q.
Variable utcnow : nat -> Z.
Variable query : string.

Local Abbreviation process_one := (process_one calculate_relevance calculate_decay utcnow).
Local Abbreviation process_from := (process_from calculate_relevance calculate_decay utcnow).
Local Abbreviation process_search_results :=
  (process_search_results calculate_relevance calculate_decay utcnow).
Local Abbreviation decay_argument := (decay_argument utcnow).
Local Abbreviation scored_as :=
  (scored_as calculate_relevance calculate_decay utcnow query).
Local Abbreviation scored_from :=
  (scored_from calculate_relevance calculate_decay utcnow query).
Local Abbreviation fails_with :=
  (fails_with calculate_relevance calculate_decay utcnow query).
Local Abbreviation helpers_return :=
  (helpers_return calculate_relevance calculate_decay utcnow query).

Lemma annotate_final_score r rel dec :
  annotate r rel dec !! "final_score"%string = Some (VNum (rel * dec)).
Proof. unfold annotate. by rewrite lookup_insert_eq. Qed.

Lemma annotate_decay_factor r rel dec :
  annotate r rel dec !! "decay_factor"%string = Some (VNum dec).
Proof. unfold annotate. by simplify_map_eq. Qed.

Lemma annotate_relevance_score r rel dec :
  annotate r rel dec !! "relevance_score"%string = Some (VNum rel).
Proof. unfold annotate. by simplify_map_eq. Qed.

Lemma annotate_other r rel dec k :
  k <> "final_score"%string -> k <> "decay_factor"%string ->
  k <> "relevance_score"%string ->
  annotate r rel dec !! k = r !! k.
Proof. intros. unfold annotate. by simplify_map_eq. Qed.

Lemma annotate_score r rel dec : score_of (annotate r rel dec) = rel * dec.
Proof. unfold score_of. by rewrite annotate_final_score. Qed.

Lemma process_one_inr i r p :
  process_one i r query = inr p <-> scored_as i r p.
Proof.
  unfold Ranking.process_one, scored_as, bind, ret. split.
  - destruct (calculate_relevance r query) as [e|rel]; [done|].
    destruct (calculate_decay _) as [e|dec]; [done|].
    intros [= <-]. by exists rel, dec.
  - intros (rel & dec & -> & -> & ->). done.
Qed.

Lemma process_one_inl i r e :
  process_one i r query = inl e <-> fails_with i r e.
Proof.
  unfold Ranking.process_one, fails_with, bind, ret. split.
  - destruct (calculate_relevance r query) as [e'|rel]; [intros [= ->]; by left|].
    destruct (calculate_decay _) as [e'|dec]; [|done].
    intros [= ->]. right. by exists rel.
  - intros [->|(rel & -> & ->)]; done.
Qed.

Lemma process_from_inr i rs ps :
  process_from i rs query = inr ps <-> scored_from i rs ps.
Proof.
  revert i ps. induction rs as [|r rs IH]; intros i ps; cbn [Ranking.process_from scored_from].
  - unfold ret. destruct ps; split; (done || by intros [=]).
  - destruct (process_one i r query) as [e|p] eqn:E1; cbn [bind].
    + split; [done|]. destruct ps as [|p ps]; [done|].
      intros [H _]. apply process_one_inr in H. congruence.
    + destruct (process_from (S i) rs query) as [e|ps'] eqn:E2; cbn [bind].
      * split; [done|]. destruct ps as [|p' ps]; [done|].
        intros [_ H]. apply IH in H. congruence.
      * unfold ret. split.
        -- intros [= <-]. split; [by apply process_one_inr|by apply IH].
        -- destruct ps as [|p' ps]; [done|].
           intros [H1 H2]. apply process_one_inr in H1. apply IH in H2.
           congruence.
Qed.

Lemma process_from_inl i rs e :
  process_from i rs query = inl e ->
  exists j r, rs !! j = Some r /\ fails_with (i + j)%nat r e.
Proof.
  revert i. induction rs as [|r rs IH]; intros i; cbn [Ranking.process_from].
  - done.
  - destruct (process_one i r query) as [e'|p] eqn:E1; cbn [bind].
    + intros [= ->]. exists 0%nat, r. split; [done|].
      rewrite Nat.add_0_r. by apply process_one_inl.
    + destruct (process_from (S i) rs query) as [e'|ps'] eqn:E2; cbn [bind]; [|done].
      intros [= ->]. destruct (IH _ E2) as (j & r' & Hj & Hf).
      exists (S j), r'. split; [done|]. by rewrite Nat.add_succ_r.
Qed.

Lemma scored_from_length i rs ps : scored_from i rs ps -> length ps = length rs.
Proof.
  revert i ps. induction rs as [|r rs IH]; intros i [|p ps]; cbn; try done.
  intros [_ H]. f_equal. by eapply IH.
Qed.

Lemma scored_from_lookup i rs ps j r :
  scored_from i rs ps -> rs !! j = Some r ->
  exists p, ps !! j = Some p /\ scored_as (i + j)%nat r p.
Proof.
  revert i ps j. induction rs as [|r' rs IH]; intros i [|p ps] j; cbn; try done.
  intros [H1 H2]. destruct j as [|j]; cbn.
  - intros [= ->]. exists p. by rewrite Nat.add_0_r.
  - intros Hj. rewrite Nat.add_succ_r. by apply (IH (S i)).
Qed.

Lemma scored_from_lookup_inv i rs ps j p :
  scored_from i rs ps -> ps !! j = Some p ->
  exists r, rs !! j = Some r /\ scored_as (i + j)%nat r p.
Proof.
  revert i ps j. induction rs as [|r' rs IH]; intros i [|p' ps] j; cbn; try done.
  intros [H1 H2]. destruct j as [|j]; cbn.
  - intros [= ->]. exists r'. by rewrite Nat.add_0_r.
  - intros Hj. rewrite Nat.add_succ_r. by apply (IH (S i) ps).
Qed.

Lemma scored_from_carries i rs ps :
  scored_from i rs ps -> Forall carries_score ps.
Proof.
  revert i ps. induction rs as [|r rs IH]; intros i [|p ps]; cbn; try done.
  intros [(rel & dec & _ & _ & ->) H]. constructor; [|by eapply IH].
  eexists. apply annotate_final_score.
Qed.

(** The whole function, in one equation: it returns exactly when the
    loop does, and then returns the sorted processed hits. *)
Lemma process_search_results_inr rs out :
  process_search_results rs query = inr out <->
  exists ps, scored_from 0 rs ps /\ out = map snd (sort_desc (map keyed ps)).
Proof.
  unfold Ranking.process_search_results, list_sort_reverse. split.
  - destruct (process_from 0 rs query) as [e|ps] eqn:E; cbn [bind]; [done|].
    apply process_from_inr in E.
    rewrite (decorate_carries ps (scored_from_carries _ _ _ E)). cbn [bind].
    intros [= <-]. by exists ps.
  - intros (ps & Hps & ->).
    pose proof (scored_from_carries _ _ _ Hps) as Hc.
    apply process_from_inr in Hps. rewrite Hps. cbn [bind].
    by rewrite (decorate_carries ps Hc).
Qed.

Lemma helpers_return_scored i rs :
  (forall j r, rs !! j = Some r -> helpers_return (i + j)%nat r) ->
  exists ps, scored_from i rs ps.
Proof.
  revert i. induction rs as [|r rs IH]; intros i Hok.
  - by exists [].
  - destruct (Hok 0%nat r eq_refl) as (rel & dec & Hrel & Hdec).
    rewrite Nat.add_0_r in Hdec.
    destruct (IH (S i)) as [ps Hps].
    { intros j r' Hj. rewrite Nat.add_succ_l, <- Nat.add_succ_r.
      by apply Hok. }
    exists (annotate r rel dec :: ps). split; [|done].
    by exists rel, dec.
Qed.

(** Two hits in a list in this order stay in this order after the
    sort when their scores are equal. *)
Lemma stable_pairs (l out : list result) :
  (forall s, List.filter (has_score s) out = List.filter (has_score s) l) ->
  forall x y, [x; y] `sublist_of` l -> score_of x == score_of y ->
    [x; y] `sublist_of` out.
Proof.
  intros Hst x y Hsub Heq.
  pose proof (sublist_List_filter (has_score (score_of y)) _ _ Hsub) as H.
  cbn [List.filter] in H. unfold has_score at 1 2 in H.
  rewrite (proj2 (Qeq_bool_iff _ _) Heq) in H.
  rewrite (proj2 (Qeq_bool_iff _ _) (Qeq_refl _)) in H.
  rewrite <- Hst in H.
  etransitivity; [exact H|]. apply List_filter_sublist.
Qed.

(** C1. The ranking returns whenever the two helpers return on every
    hit, and what it returns is the list of processed hits, sorted by
    [final_score] in descending order; hits of equal score keep the
    order they had in the input (for every score, the hits of that
    score appear in input order; in particular, of two hits with equal
    scores the one earlier in the input is earlier in the output). *)
Theorem rank_sorted_stable (results : list result) :
  ((forall j r, results !! j = Some r -> helpers_return j r) ->
   exists out, process_search_results results query = inr out) /\
  (forall out, process_search_results results query = inr out ->
   exists processed,
     scored_from 0 results processed /\
     Permutation out processed /\
     StronglySorted score_ge out /\
     (forall s, List.filter (has_score s) out
                = List.filter (has_score s) processed) /\
     (forall x y, [x; y] `sublist_of` processed ->
                  score_of x == score_of y -> [x; y] `sublist_of` out)).
Proof.
  split.
  - intros Hok. destruct (helpers_return_scored 0 results Hok) as [ps Hps].
    eexists. apply process_search_results_inr. by exists ps.
  - intros out (ps & Hps & ->)%process_search_results_inr.
    destruct (sort_keyed_spec ps) as (Hperm & Hsorted & Hstable).
    exists ps. repeat split; try done.
    by apply stable_pairs.
Qed.

Lemma product_in_unit_interval (a b : Q) :
  0 <= a <= 1 -> 0 <= b <= 1 -> 0 <= a * b <= 1.
Proof. intros [? ?] [? ?]. split; nra. Qed.

(** C2. Every hit the ranking returns is the processed copy of an input
    hit and carries, under ["final_score"], exactly the product of the
    relevance score and the decay factor computed for that hit (which
    it also carries); the product is in [0,1] when both factors are.
    Conversely every input hit has such a copy in the output. *)
Theorem final_score_is_product (results out : list result) :
  process_search_results results query = inr out ->
  (forall p, p ∈ out ->
     exists j r relevance_score decay_factor,
       results !! j = Some r /\
       calculate_relevance r query = inr relevance_score /\
       calculate_decay (decay_argument j r) = inr decay_factor /\
       p !! "relevance_score"%string = Some (VNum relevance_score) /\
       p !! "decay_factor"%string = Some (VNum decay_factor) /\
       p !! "final_score"%string
         = Some (VNum (relevance_score * decay_factor)) /\
       (0 <= relevance_score <= 1 -> 0 <= decay_factor <= 1 ->
        0 <= relevance_score * decay_factor <= 1)) /\
  (forall j r, results !! j = Some r -> exists p, p ∈ out /\ scored_as j r p).
Proof.
  intros (ps & Hps & ->)%process_search_results_inr.
  destruct (sort_keyed_spec ps) as (Hperm & _ & _). split.
  - intros p Hp. rewrite Hperm in Hp.
    apply list_elem_of_lookup in Hp as [j Hj].
    destruct (scored_from_lookup_inv _ _ _ _ _ Hps Hj)
      as (r & Hr & rel & dec & Hrel & Hdec & ->).
    exists j, r, rel, dec. repeat split; try done.
    + apply annotate_relevance_score.
    + apply annotate_decay_factor.
    + apply annotate_final_score.
    + by apply product_in_unit_interval.
    + by apply product_in_unit_interval.
  - intros j r Hr.
    destruct (scored_from_lookup _ _ _ _ _ Hps Hr) as (p & Hp & Hsc).
    exists p. split; [|done]. rewrite Hperm.
    apply list_elem_of_lookup. by exists j.
Qed.

(** C4 (as amended). The loop has no range check and no per-hit error
    handling.  When the call returns, every input hit, whatever its
    relevance score, is in the output with the product as its
    [final_score], and the output is as long as the input: no hit is
    rejected.  When a helper raises on some hit, that exception is the
    result of the whole call: the batch is aborted. *)
Theorem no_hit_rejected (results : list result) :
  match process_search_results results query with
  | inr out =>
      length out = length results /\
      forall j r, results !! j = Some r ->
        exists p, p ∈ out /\ scored_as j r p /\
          exists relevance_score decay_factor,
            calculate_relevance r query = inr relevance_score /\
            calculate_decay (decay_argument j r) = inr decay_factor /\
            score_of p = relevance_score * decay_factor
  | inl e => exists j r, results !! j = Some r /\ fails_with j r e
  end.
Proof.
  destruct (process_search_results results query) as [e|out] eqn:E.
  - unfold Ranking.process_search_results in E.
    destruct (process_from 0 results query) as [e'|ps] eqn:E'; cbn [bind] in E.
    + injection E as ->. by apply process_from_inl in E'.
    + apply process_from_inr in E'.
      unfold list_sort_reverse in E.
      rewrite (decorate_carries ps (scored_from_carries _ _ _ E')) in E.
      done.
  - apply process_search_results_inr in E as (ps & Hps & ->).
    destruct (sort_keyed_spec ps) as (Hperm & _ & _). split.
    + rewrite Hperm. by eapply scored_from_length.
    + intros j r Hr.
      destruct (scored_from_lookup _ _ _ _ _ Hps Hr) as (p & Hp & Hsc).
      exists p. split; [|split; [done|]].
      * rewrite Hperm. apply list_elem_of_lookup. by exists j.
      * destruct Hsc as (rel & dec & Hrel & Hdec & ->).
        exists rel, dec. repeat split; try done. apply annotate_score.
Qed.

(** The argument of [calculate_decay] is read from ["created_at"] and
    from the clock only: no other key of the hit matters. *)
Lemma decay_argument_created_at i (r : result) :
  (forall t, r !! "created_at"%string = Some t -> decay_argument i r = t) /\
  (r !! "created_at"%string = None -> decay_argument i r = VTime (utcnow i)) /\
  (forall k v, k <> "created_at"%string ->
     decay_argument i (<[k := v]> r) = decay_argument i r).
Proof.
  unfold Ranking.decay_argument. repeat split.
  - by intros t ->.
  - by intros ->.
  - intros k v Hk. by rewrite lookup_insert_ne.
Qed.

End ManagerFacts.

(** ** Concrete runs *)

Example sample_run :
  process_search_results sample_relevance sample_decay sample_clock
    sample_hits "q" = inr sample_ranking.
Proof. vm_compute. reflexivity. Qed.

Lemma rank_sorted_stable_witness :
  exists out,
    process_search_results sample_relevance sample_decay sample_clock
      sample_hits "q" = inr out /\
    StronglySorted score_ge out /\
    forall s, List.filter (has_score s) out
              = List.filter (has_score s) sample_ranking.
Proof.
  destruct (rank_sorted_stable sample_relevance sample_decay sample_clock
              "q" sample_hits) as [Hreturns Hsorted].
  destruct Hreturns as [out Hout].
  { intros j r Hj.
    do 4 (destruct j as [|j];
          [injection Hj as <-; eexists _, _; split; reflexivity|]).
    discriminate Hj. }
  exists out. split; [exact Hout|].
  destruct (Hsorted out Hout) as (processed & _ & _ & Hs & _).
  split; [exact Hs|].
  intros s. rewrite sample_run in Hout. injection Hout as <-. reflexivity.
Defined.

Lemma final_score_is_product_witness :
  process_search_results sample_relevance sample_decay sample_clock
    sample_hits "q" = inr sample_ranking /\
  forall p, p ∈ sample_ranking ->
    exists relevance_score decay_factor,
      p !! "relevance_score"%string = Some (VNum relevance_score) /\
      p !! "decay_factor"%string = Some (VNum decay_factor) /\
      p !! "final_score"%string = Some (VNum (relevance_score * decay_factor)).
Proof.
  split; [exact sample_run|].
  intros p Hp.
  destruct (final_score_is_product sample_relevance sample_decay sample_clock
              "q" sample_hits sample_ranking sample_run) as [Hout _].
  destruct (Hout p Hp) as (j & r & rel & dec & _ & _ & _ & H1 & H2 & H3 & _).
  by exists rel, dec.
Defined.

(** C4, as stated, fails: the hit of similarity 3/2 is neither rejected
    nor reported; it is ranked first, with a final score above 1. *)
Lemma out_of_range_hit_is_ranked :
  sample_relevance (hit 1 (3 # 2) 500) "q" = inr (3 # 2) /\
  ~ (3 # 2 <= 1) /\
  process_search_results sample_relevance sample_decay sample_clock
    out_of_range_hits "q"
  = inr [annotate (hit 1 (3 # 2) 500) (3 # 2) 1;
         annotate (hit 2 (1 # 2) 500) (1 # 2) 1].
Proof.
  split; [reflexivity|]. split; [by intros H; vm_compute in H|].
  vm_compute. reflexivity.
Qed.

(** A helper that raises on one hit aborts the whole batch: the second
    hit has no ["score"]. *)
Example failing_hit_aborts_batch :
  process_search_results sample_relevance sample_decay sample_clock
    [hit 1 (1 # 2) 500; {[ "id"%string := VNum 2 ]}; hit 3 1 500] "q"
  = inl (KeyError "score").
Proof. vm_compute. reflexivity. Qed.

(** A hit without ["created_at"] is scored with the clock reading. *)
Example missing_created_at_uses_clock :
  decay_argument sample_clock 3 {[ "id"%string := VNum 2 ]} = VTime 1003.
Proof. reflexivity. Qed.

End RankingFacts.

(* ===================================================================== *)
(** * 6. Properties of the retention model and the classifier             *)
(* ===================================================================== *)

Module RetentionFacts.
Import Retention Lra.

Local Open Scope R_scope.

Lemma exp_le_mono (x y : R) : x <= y -> exp x <= exp y.
Proof.
  intros [Hlt | ->]; [|apply Rle_refl].
  left. by apply exp_increasing.
Qed.

Lemma clamp_inside (lo hi x : R) : lo <= x <= hi -> clamp lo hi x = x.
Proof.
  intros [Hlo Hhi]. unfold clamp.
  rewrite (Rmin_right hi x Hhi). by apply Rmax_right.
Qed.

Lemma clamp_bounds (lo hi x : R) : lo <= hi -> lo <= clamp lo hi x <= hi.
Proof.
  intros H. unfold clamp. split; [apply Rmax_l|].
  apply Rmax_lub; [done|apply Rmin_l].
Qed.

Lemma clamp_mono (lo hi x y : R) : x <= y -> clamp lo hi x <= clamp lo hi y.
Proof.
  intros H. unfold clamp.
  apply Rle_max_compat_l. by apply Rle_min_compat_l.
Qed.

Lemma age_days_nonneg (now reference : R) : 0 <= age_days now reference.
Proof. apply Rmax_l. Qed.

Lemma age_days_clock_skew (now reference : R) :
  now <= reference -> age_days now reference = 0.
Proof. intros H. unfold age_days. apply Rmax_left. lra. Qed.

Lemma age_days_elapsed (now reference : R) :
  reference <= now -> age_days now reference = now - reference.
Proof. intros H. unfold age_days. apply Rmax_right. lra. Qed.

Lemma age_days_mono (now1 now2 reference : R) :
  now1 <= now2 -> age_days now1 reference <= age_days now2 reference.
Proof. intros H. unfold age_days. apply Rle_max_compat_l. lra. Qed.

Section ValidConfig.
Variable c : Config.
Hypothesis Hvalid : valid_config c.

Lemma denominator_pos (n : nat) : 0 < 1 + reinforcement_factor c * INR n.
Proof.
  destruct Hvalid as (_ & _ & Hrf & _).
  pose proof (pos_INR n). nra.
Qed.

Lemma effective_decay_rate_pos (n : nat) : 0 < effective_decay_rate c n.
Proof.
  unfold effective_decay_rate. apply Rdiv_lt_0_compat.
  - by destruct Hvalid.
  - apply denominator_pos.
Qed.

(** Before clamping the value is already in (0, initial_retention]. *)
Lemma unclamped_range (n : nat) (age : R) :
  0 <= age ->
  0 < initial_retention c * exp (- effective_decay_rate c n * age)
    <= initial_retention c.
Proof.
  intros Hage. destruct Hvalid as (_ & [Hi _] & _).
  pose proof (effective_decay_rate_pos n) as Hr.
  pose proof (exp_pos (- effective_decay_rate c n * age)) as Hpos.
  assert (exp (- effective_decay_rate c n * age) <= 1) as Hle.
  { rewrite <- exp_0. apply exp_le_mono. nra. }
  split; nra.
Qed.

Lemma retention_at_unclamped (n : nat) (age : R) :
  0 <= age ->
  retention_at c n age
  = initial_retention c * exp (- effective_decay_rate c n * age).
Proof.
  intros Hage. unfold retention_at. apply clamp_inside.
  destruct (unclamped_range n age Hage). lra.
Qed.

Lemma retention_at_zero (n : nat) : retention_at c n 0 = initial_retention c.
Proof.
  rewrite retention_at_unclamped; [|lra].
  rewrite Rmult_0_r, exp_0. lra.
Qed.

Lemma retention_at_mono (n : nat) (a1 a2 : R) :
  a1 <= a2 -> retention_at c n a2 <= retention_at c n a1.
Proof.
  intros H. unfold retention_at. apply clamp_mono.
  destruct Hvalid as (_ & [Hi _] & _).
  pose proof (effective_decay_rate_pos n) as Hr.
  apply Rmult_le_compat_l; [lra|].
  apply exp_le_mono. nra.
Qed.
End ValidConfig.

Lemma sample_config_valid : valid_config sample_config.
Proof. unfold valid_config, sample_config; cbn. lra. Qed.

(** C6. Under a valid configuration, [decay] with [access_count = 0]
    (hence no reinforcement time) and [now = created_at] is exactly
    [initial_retention]; in general [decay] is
    [initial_retention * exp(- effective_decay_rate * age_days)] clamped
    to [[0, initial_retention]], with
    [effective_decay_rate = decay_rate / (1 + reinforcement_factor *
    access_count)]; the result is in that interval, and the clamp never
    changes the value. *)
Theorem decay_formula (c : Config) :
  valid_config c ->
  (forall created_at, decay created_at None 0 created_at c = initial_retention c) /\
  (forall created_at last_reinforced_at access_count now,
     let age := age_days now (reference_time created_at last_reinforced_at) in
     let rate := decay_rate c / (1 + reinforcement_factor c * INR access_count) in
     decay created_at last_reinforced_at access_count now c
     = Rmax 0 (Rmin (initial_retention c)
                 (initial_retention c * exp (- rate * age))) /\
     0 <= decay created_at last_reinforced_at access_count now c
       <= initial_retention c /\
     decay created_at last_reinforced_at access_count now c
     = initial_retention c * exp (- rate * age)).
Proof.
  intros Hv. split.
  - intros t. unfold decay, reference_time.
    rewrite age_days_clock_skew; [|lra]. by apply retention_at_zero.
  - intros created_at last n now age rate. split; [reflexivity|]. split.
    + unfold decay, retention_at. apply clamp_bounds.
      destruct Hv as (_ & [Hi _] & _). lra.
    + unfold decay. apply retention_at_unclamped; [done|].
      apply age_days_nonneg.
Qed.

Lemma decay_formula_witness :
  valid_config sample_config /\
  decay 5 None 0 5 sample_config = 1 /\
  decay 0 (Some 2) 2 12 sample_config
  = 1 * exp (- (1 / 10 / (1 + 3 / 10 * INR 2)) * age_days 12 2).
Proof.
  assert (valid_config sample_config) as Hv.
  { unfold valid_config, sample_config; cbn. lra. }
  destruct (decay_formula sample_config Hv) as [H0 H].
  split; [exact Hv|]. split.
  - exact (H0 5).
  - exact (proj2 (proj2 (H 0 (Some 2) 2%nat 12))).
Defined.

(** The numeric example of the specification: ten days after creation the
    retention is [exp(-1)] without reinforcement and [exp(-0.625)] after
    two accesses. *)
Example decay_numeric_example :
  decay 0 None 0 10 sample_config = exp (- 1) /\
  decay 0 None 2 10 sample_config = exp (- (625 / 1000)).
Proof.
  unfold decay, reference_time. rewrite age_days_elapsed by lra.
  rewrite !(retention_at_unclamped _ sample_config_valid) by lra.
  cbn. rewrite !Rmult_1_l.
  split; f_equal; unfold effective_decay_rate; cbn; field.
Qed.

(** C8. Under a valid configuration and for a fixed access count,
    retention is non-increasing in the age: for ages [0 <= a1 <= a2] the
    retention at [a2] is at most the retention at [a1]; hence, for a
    fixed record, [decay] at a later [now] is at most [decay] at an
    earlier one. *)
Theorem decay_non_increasing (c : Config) (access_count : nat) :
  valid_config c ->
  (forall a1 a2, 0 <= a1 <= a2 ->
     retention_at c access_count a2 <= retention_at c access_count a1) /\
  (forall created_at last_reinforced_at now1 now2, now1 <= now2 ->
     decay created_at last_reinforced_at access_count now2 c
     <= decay created_at last_reinforced_at access_count now1 c).
Proof.
  intros Hv. split.
  - intros a1 a2 [_ H]. by apply retention_at_mono.
  - intros created_at last now1 now2 H. unfold decay.
    apply retention_at_mono; [done|]. by apply age_days_mono.
Qed.

Lemma decay_non_increasing_witness :
  valid_config sample_config /\ 0 <= 2 <= 7 /\
  retention_at sample_config 3 7 <= retention_at sample_config 3 2 /\
  decay 0 None 3 7 sample_config <= decay 0 None 3 2 sample_config.
Proof.
  assert (valid_config sample_config) as Hv.
  { unfold valid_config, sample_config; cbn. lra. }
  assert (0 <= 2 <= 7) as Hages by lra.
  destruct (decay_non_increasing sample_config 3 Hv) as [Hage Hnow].
  split; [exact Hv|]. split; [exact Hages|]. split.
  - exact (Hage 2 7 Hages).
  - apply Hnow. lra.
Defined.

Lemma classify_LongTerm r c : long_term c <= r -> classify r c = LongTerm.
Proof. intros H. unfold classify. by destruct (Rle_dec _ _). Qed.

Lemma classify_ShortTerm r c :
  r < long_term c -> short_term c <= r -> classify r c = ShortTerm.
Proof.
  intros H1 H2. unfold classify.
  destruct (Rle_dec (long_term c) r); [lra|]. by destruct (Rle_dec _ _).
Qed.

Lemma classify_Working r c :
  r < long_term c -> r < short_term c -> working c <= r ->
  classify r c = Working.
Proof.
  intros H1 H2 H3. unfold classify.
  destruct (Rle_dec (long_term c) r); [lra|].
  destruct (Rle_dec (short_term c) r); [lra|]. by destruct (Rle_dec _ _).
Qed.

Lemma classify_Forgotten r c :
  r < long_term c -> r < short_term c -> r < working c ->
  classify r c = Forgotten.
Proof.
  intros H1 H2 H3. unfold classify.
  destruct (Rle_dec (long_term c) r); [lra|].
  destruct (Rle_dec (short_term c) r); [lra|].
  destruct (Rle_dec (working c) r); [lra|done].
Qed.

(** C7. [classify] returns [LongTerm] if [retention >= long_term], else
    [ShortTerm] if [retention >= short_term], else [Working] if
    [retention >= working], else [Forgotten]; with ascending thresholds
    the four tiers are exactly the four intervals the thresholds cut.
    With thresholds 0.3, 0.6 and 0.8 the retentions 0.85, 0.65, 0.35 and
    0.1 are [LongTerm], [ShortTerm], [Working] and [Forgotten]. *)
Theorem classify_tiers (c : Config) :
  valid_config c ->
  (forall r,
     (long_term c <= r -> classify r c = LongTerm) /\
     (~ long_term c <= r -> short_term c <= r -> classify r c = ShortTerm) /\
     (~ long_term c <= r -> ~ short_term c <= r -> working c <= r ->
      classify r c = Working) /\
     (~ long_term c <= r -> ~ short_term c <= r -> ~ working c <= r ->
      classify r c = Forgotten)) /\
  (forall r,
     (classify r c = LongTerm <-> long_term c <= r) /\
     (classify r c = ShortTerm <-> short_term c <= r < long_term c) /\
     (classify r c = Working <-> working c <= r < short_term c) /\
     (classify r c = Forgotten <-> r < working c)) /\
  (working c = 3 / 10 -> short_term c = 6 / 10 -> long_term c = 8 / 10 ->
   classify (85 / 100) c = LongTerm /\
   classify (65 / 100) c = ShortTerm /\
   classify (35 / 100) c = Working /\
   classify (1 / 10) c = Forgotten).
Proof.
  intros (_ & _ & _ & Hw & Hws & Hsl & _).
  split; [|split].
  - intros r. repeat split; intros.
    + by apply classify_LongTerm.
    + apply classify_ShortTerm; lra.
    + apply classify_Working; lra.
    + apply classify_Forgotten; lra.
  - intros r. unfold classify.
    destruct (Rle_dec (long_term c) r);
      [|destruct (Rle_dec (short_term c) r);
        [|destruct (Rle_dec (working c) r)]];
      repeat split; intros; try done; try lra.
  - intros Ew Es El. repeat split.
    + apply classify_LongTerm; lra.
    + apply classify_ShortTerm; lra.
    + apply classify_Working; lra.
    + apply classify_Forgotten; lra.
Qed.

Lemma classify_tiers_witness :
  valid_config sample_config /\
  classify (85 / 100) sample_config = LongTerm /\
  classify (65 / 100) sample_config = ShortTerm /\
  classify (35 / 100) sample_config = Working /\
  classify (1 / 10) sample_config = Forgotten /\
  (classify (7 / 10) sample_config = ShortTerm <->
   short_term sample_config <= 7 / 10 < long_term sample_config).
Proof.
  assert (valid_config sample_config) as Hv.
  { unfold valid_config, sample_config; cbn. lra. }
  destruct (classify_tiers sample_config Hv) as (_ & Hiff & Hex).
  destruct Hex as (H1 & H2 & H3 & H4); [reflexivity..|].
  repeat (split; [assumption|]).
  exact (proj1 (proj2 (Hiff (7 / 10)))).
Defined.

End RetentionFacts.

(* ===================================================================== *)
(** * 7. Properties of the memory id conversions                          *)
(* ===================================================================== *)

Module GoClientFacts.
Import GoClient Precision.

Local Open Scope string_scope.
Local Open Scope Z_scope.

(** ** [ParseInt] *)

Lemma digit_of_range c d : digit_of c = Some d -> 0 <= d <= 9.
Proof.
  unfold digit_of. destruct (_ && _) eqn:E; [|done].
  intros [= <-]. lia.
Qed.

Lemma digit_of_digit_char d : 0 <= d <= 9 -> digit_of (digit_char d) = Some d.
Proof.
  intros H.
  assert (d = 0 \/ d = 1 \/ d = 2 \/ d = 3 \/ d = 4 \/
          d = 5 \/ d = 6 \/ d = 7 \/ d = 8 \/ d = 9) as Hd by lia.
  repeat (destruct Hd as [->|Hd]; [reflexivity|]). by subst.
Qed.

Lemma ParseUint_loop_range s : forall n u,
  0 <= n <= maxUint64 -> ParseUint_loop n s = inr u -> 0 <= u <= maxUint64.
Proof.
  induction s as [|c s IH]; intros n u Hn; cbn [ParseUint_loop].
  - by intros [= <-].
  - destruct (digit_of c) as [d|] eqn:Hd; [|done].
    apply digit_of_range in Hd.
    destruct (maxUint64 / 10 + 1 <=? n); [done|].
    destruct (maxUint64 <? n * 10 + d) eqn:E; [done|].
    apply IH. lia.
Qed.

Lemma ParseUint_range s u : ParseUint s = inr u -> 0 <= u <= maxUint64.
Proof.
  destruct s as [|c s]; [done|]. unfold ParseUint.
  apply ParseUint_loop_range. unfold maxUint64. lia.
Qed.

(** Whatever [ParseInt] returns fits in an [int64]. *)
Lemma ParseInt_int64 s z : ParseInt s = inr z -> is_int64 z.
Proof.
  destruct s as [|c s]; [done|]. unfold ParseInt.
  destruct (if Ascii.eqb c "+" then _ else _) as [neg s0].
  destruct (ParseUint s0) as [e|un] eqn:E; [done|].
  apply ParseUint_range in E. unfold is_int64, minInt64, maxInt64.
  destruct neg; cbn [negb andb].
  - destruct (2 ^ 63 <? un) eqn:E'; [done|]. intros [= <-]. lia.
  - destruct (2 ^ 63 <=? un) eqn:E'; [done|]. intros [= <-]. lia.
Qed.

(** ** [FormatInt] followed by [ParseInt] *)

Lemma format_digits_starts fuel : forall n acc,
  0 <= n -> (0 < fuel)%nat \/ starts_with_digit acc ->
  starts_with_digit (format_digits fuel n acc).
Proof.
  induction fuel as [|fuel IH]; intros n acc Hn Hacc; cbn [format_digits].
  - destruct Hacc as [?|?]; [lia|done].
  - assert (starts_with_digit (String (digit_char (n mod 10)) acc)) as Hd.
    { exists (n mod 10). apply digit_of_digit_char.
      pose proof (Z.mod_pos_bound n 10). lia. }
    destruct (n <? 10); [done|].
    apply IH; [|by right]. apply Z.div_pos; lia.
Qed.

Lemma ParseUint_loop_format fuel : forall n acc,
  0 <= n <= maxUint64 -> n < 10 ^ Z.of_nat fuel ->
  ParseUint_loop 0 (format_digits fuel n acc) = ParseUint_loop n acc.
Proof.
  unfold maxUint64.
  induction fuel as [|fuel IH]; intros n acc Hn Hfuel.
  - change (10 ^ Z.of_nat 0) with 1 in Hfuel.
    assert (n = 0) as -> by lia. done.
  - cbn [format_digits].
    pose proof (Z.mod_pos_bound n 10 ltac:(lia)) as Hmod.
    pose proof (Z.div_mod n 10 ltac:(lia)) as Hdiv.
    destruct (n <? 10) eqn:E.
    + apply Z.ltb_lt in E. rewrite Z.mod_small by lia.
      cbn [ParseUint_loop]. rewrite digit_of_digit_char by lia.
      replace (0 * 10 + n) with n by lia.
      destruct (maxUint64 / 10 + 1 <=? 0) eqn:E1; [done|].
      destruct (maxUint64 <? n) eqn:E2; [|done].
      apply Z.ltb_lt in E2. unfold maxUint64 in E2. lia.
    + apply Z.ltb_ge in E.
      assert (0 <= n / 10) by (apply Z.div_pos; lia).
      rewrite IH.
      * cbn [ParseUint_loop]. rewrite digit_of_digit_char by lia.
        replace (n / 10 * 10 + n mod 10) with n by lia.
        destruct (maxUint64 / 10 + 1 <=? n / 10) eqn:E1.
        { apply Z.leb_le in E1. unfold maxUint64 in E1.
          change ((2 ^ 64 - 1) / 10 + 1) with 1844674407370955162 in E1.
          lia. }
        destruct (maxUint64 <? n) eqn:E2; [|done].
        apply Z.ltb_lt in E2. unfold maxUint64 in E2. lia.
      * lia.
      * rewrite Nat2Z.inj_succ, Z.pow_succ_r in Hfuel by lia. lia.
Qed.

Lemma ParseUint_FormatUint n :
  0 <= n <= maxUint64 -> ParseUint (FormatUint n) = inr n.
Proof.
  intros Hn. unfold ParseUint.
  pose proof (format_digits_starts 20 n EmptyString ltac:(lia) ltac:(left; lia))
    as Hs.
  unfold FormatUint in *.
  destruct (format_digits 20 n EmptyString) as [|c s] eqn:E; [done|].
  rewrite <- E. rewrite ParseUint_loop_format; [done|done|].
  unfold maxUint64 in Hn. change (10 ^ Z.of_nat 20) with 100000000000000000000.
  lia.
Qed.

Lemma ParseInt_minus s :
  ParseInt (String "-" s)
  = match ParseUint s with
    | inl e => inl e
    | inr un => if 2 ^ 63 <? un then inl ErrRange else inr (- un)
    end.
Proof. reflexivity. Qed.

Lemma ParseInt_FormatInt z : is_int64 z -> ParseInt (FormatInt z) = inr z.
Proof.
  unfold is_int64, minInt64, maxInt64, FormatInt. intros Hz.
  destruct (z <? 0) eqn:E.
  - apply Z.ltb_lt in E. rewrite ParseInt_minus.
    rewrite ParseUint_FormatUint by (unfold maxUint64; lia).
    destruct (2 ^ 63 <? - z) eqn:E'; [apply Z.ltb_lt in E'; lia|].
    f_equal. lia.
  - apply Z.ltb_ge in E.
    pose proof (format_digits_starts 20 z EmptyString E ltac:(left; lia)) as Hs.
    pose proof (ParseUint_FormatUint z ltac:(unfold maxUint64; lia)) as Hp.
    unfold FormatUint in *.
    destruct (format_digits 20 z EmptyString) as [|c s]; [done|].
    destruct Hs as [d Hd]. unfold ParseInt.
    assert (Ascii.eqb c "+" = false /\ Ascii.eqb c "-" = false) as [-> ->].
    { split; apply Ascii.eqb_neq; intros ->; discriminate Hd. }
    rewrite Hp. cbn [negb andb].
    destruct (2 ^ 63 <=? z) eqn:E'; [apply Z.leb_le in E'; lia|done].
Qed.

(** ** [UnmarshalJSON] *)

(** C10 (as amended). [UnmarshalJSON] sets the id to the parsed value for
    a JSON number whose literal is an int64 in decimal and for a JSON
    string that [ParseInt] accepts; it returns an error exactly for a
    JSON string that [ParseInt] rejects, and then leaves the id
    unchanged; for a boolean, an array, an object, a number that is not
    an int64 literal and for bytes that are not JSON it returns no error
    and leaves the id unchanged; for [null] it returns no error and sets
    the id to 0.  The new id is the old one or fits in an int64. *)
Theorem UnmarshalJSON_cases (m : MemoryID) (data : document) :
  UnmarshalJSON m data
  = match data with
    | Doc (JNumber literal) =>
        match ParseInt literal with
        | inr n => (n, None)
        | inl _ => (m, None)
        end
    | Doc (JString s) =>
        match ParseInt s with
        | inr n => (n, None)
        | inl err => (m, Some err)
        end
    | Doc JNull => (0, None)
    | Doc (JBool _) | Doc (JArray _) | Doc (JObject _) | Malformed => (m, None)
    end /\
  (forall err, snd (UnmarshalJSON m data) = Some err <->
               exists s, data = Doc (JString s) /\ ParseInt s = inl err) /\
  (fst (UnmarshalJSON m data) = m \/ is_int64 (fst (UnmarshalJSON m data))).
Proof.
  assert (is_int64 0) as H0 by (unfold is_int64, minInt64, maxInt64; lia).
  unfold UnmarshalJSON.
  destruct data as [|[|b|lit|s|elems|fields]]; cbn.
  - repeat split; [intros [=]|intros (s & [=] & _)|by left].
  - repeat split; [intros [=]|intros (s & [=] & _)|by right].
  - repeat split; [intros [=]|intros (s & [=] & _)|by left].
  - destruct (ParseInt lit) as [e|n] eqn:E; cbn.
    + repeat split; [intros [=]|intros (s & [=] & _)|by left].
    + repeat split; [intros [=]|intros (s & [=] & _)|].
      right. by eapply ParseInt_int64.
  - destruct (ParseInt s) as [e|n] eqn:E; cbn.
    + repeat split; [intros [= <-]; by exists s| |by left].
      intros (s' & [= <-] & Hs). congruence.
    + repeat split; [intros [=]| |right; by eapply ParseInt_int64].
      intros (s' & [= <-] & Hs). congruence.
  - repeat split; [intros [=]|intros (s & [=] & _)|by left].
  - repeat split; [intros [=]|intros (s & [=] & _)|by left].
Qed.

(** C10, as stated, fails for [null]: the id is overwritten with 0. *)
Lemma null_resets_memory_id :
  UnmarshalJSON 7 (Doc JNull) = (0, None) /\
  fst (UnmarshalJSON 7 (Doc JNull)) <> 7.
Proof. split; [reflexivity|]. cbn. lia. Qed.

Example UnmarshalJSON_examples :
  UnmarshalJSON 7 (Doc (JNumber "653247040368672768"))
    = (653247040368672768, None) /\
  UnmarshalJSON 7 (Doc (JString "653247040368672768"))
    = (653247040368672768, None) /\
  UnmarshalJSON 7 (Doc (JString "12x")) = (7, Some ErrSyntax) /\
  UnmarshalJSON 7 (Doc (JString "9223372036854775808")) = (7, Some ErrRange) /\
  UnmarshalJSON 7 (Doc (JNumber "1.5")) = (7, None) /\
  UnmarshalJSON 7 (Doc (JNumber "9223372036854775808")) = (7, None) /\
  UnmarshalJSON 7 (Doc (JBool true)) = (7, None) /\
  UnmarshalJSON 7 (Doc (JArray [JNumber "1"])) = (7, None) /\
  UnmarshalJSON 7 Malformed = (7, None).
Proof. repeat split. Qed.

(** ** [MarshalJSON] *)

(** X1. Within Go the number form is exact: what [MarshalJSON] writes
    for an int64 id, [UnmarshalJSON] reads back as that id, whatever the
    id held before. *)
Lemma UnmarshalJSON_MarshalJSON (m0 m : MemoryID) :
  is_int64 m -> UnmarshalJSON m0 (fst (MarshalJSON m)) = (m, None).
Proof.
  intros Hm. unfold UnmarshalJSON, MarshalJSON. cbn.
  by rewrite ParseInt_FormatInt.
Qed.

(** X2. The decimal text that [String()] writes for an int64 id is read
    back by [UnmarshalJSON] as that id when it arrives as a JSON
    string. *)
Lemma UnmarshalJSON_String (m0 m : MemoryID) :
  is_int64 m -> UnmarshalJSON m0 (Doc (JString (String_ m))) = (m, None).
Proof.
  intros Hm. unfold UnmarshalJSON, String_. cbn.
  by rewrite ParseInt_FormatInt.
Qed.

(** C5 (the code at the failing input). [MarshalJSON] always writes a
    JSON number, never a string; for the id [2^53 + 1] it writes the
    number 9007199254740993, which a reader with double-precision
    numbers ([JSON.parse]) turns into 9007199254740992. *)
Theorem MarshalJSON_writes_number :
  (forall m, exists literal, MarshalJSON m = (Doc (JNumber literal), None)) /\
  is_int64 (2 ^ 53 + 1) /\
  MarshalJSON (2 ^ 53 + 1) = (Doc (JNumber "9007199254740993"), None) /\
  JSON_parse_number (fst (MarshalJSON (2 ^ 53 + 1))) = Some 9007199254740992 /\
  9007199254740992 <> 2 ^ 53 + 1.
Proof.
  split; [intros m; by eexists|].
  split; [unfold is_int64, minInt64, maxInt64; lia|].
  split; [reflexivity|]. split; [reflexivity|]. lia.
Qed.

(** The two tests of test_precision.js on its second id: through a JSON
    number the text that comes back differs from the original, through a
    JSON string it is the original. *)
Example test_precision_id2 :
  id_through_number "653247040368672768" = Some "653247040368672800" /\
  id_through_string "653247040368672768" = Some "653247040368672768".
Proof. split; reflexivity. Qed.

End GoClientFacts.

(* ===================================================================== *)
(** * 8. The reference time of the decay                                  *)
(* ===================================================================== *)

Module DecayReferenceFacts.
Import Ranking Retention RankingFacts RetentionFacts.

Section CallSite.
Variable calculate_relevance : result -> string -> py Q.
Variable calculate_decay : value -> py Q.
Variable utcnow : nat -> Z.
Variable query : string.

(** C3 (as amended). The time [process_search_results] hands to
    [calculate_decay] is the hit's ["created_at"] when the hit has one
    and the clock reading otherwise; ["last_reinforced_at"] is not
    consulted, and the decay factor of the processed hit is
    [calculate_decay] of that time.  With the age of the
    specification, [age_days = max(0, now - reference_time)], a [now]
    earlier than the reference time gives age 0. *)
Theorem decay_reference_is_created_at (i : nat) (r : result) :
  (forall t, r !! "created_at"%string = Some t ->
     decay_argument utcnow i r = t) /\
  (r !! "created_at"%string = None ->
     decay_argument utcnow i r = VTime (utcnow i)) /\
  (forall v, decay_argument utcnow i (<["last_reinforced_at"%string := v]> r)
             = decay_argument utcnow i r) /\
  (forall p,
     process_one calculate_relevance calculate_decay utcnow i r query = inr p ->
     exists decay_factor,
       calculate_decay (decay_argument utcnow i r) = inr decay_factor /\
       p !! "decay_factor"%string = Some (VNum decay_factor)) /\
  (forall now reference : R,
     age_days now reference = Rmax 0 (now - reference) /\
     (0 <= age_days now reference)%R /\
     ((now <= reference)%R -> age_days now reference = 0%R)).
Proof.
  destruct (decay_argument_created_at utcnow i r) as (H1 & H2 & H3).
  split; [exact H1|]. split; [exact H2|]. split; [intros v; by apply H3|].
  split.
  - intros p (rel & dec & _ & Hdec & ->)%process_one_inr.
    exists dec. split; [done|]. apply annotate_decay_factor.
  - intros now reference. split; [reflexivity|].
    split; [apply age_days_nonneg|apply age_days_clock_skew].
Qed.
End CallSite.

Lemma decay_reference_is_created_at_witness :
  hit 1 (1 # 2) 500 !! "created_at"%string = Some (VTime 500) /\
  decay_argument sample_clock 0 (hit 1 (1 # 2) 500) = VTime 500 /\
  (3 <= 5)%R /\ age_days 3 5 = 0%R.
Proof.
  destruct (decay_reference_is_created_at sample_relevance sample_decay
              sample_clock "q" 0 (hit 1 (1 # 2) 500))
    as (Hcreated & _ & _ & _ & Hage).
  assert (hit 1 (1 # 2) 500 !! "created_at"%string = Some (VTime 500)) as Hk
    by reflexivity.
  assert (3 <= 5)%R as Hle by Lra.lra.
  split; [exact Hk|]. split; [exact (Hcreated _ Hk)|].
  split; [exact Hle|]. exact (proj2 (proj2 (Hage 3 5)%R) Hle).
Defined.

(** C3, as stated, fails: a hit reinforced at time 900 is still aged from
    its creation time 500. *)
Lemma last_reinforced_at_is_ignored :
  let r := <["last_reinforced_at"%string := VTime 900]> (hit 1 (1 # 2) 500) in
  r !! "last_reinforced_at"%string = Some (VTime 900) /\
  decay_argument sample_clock 0 r = VTime 500 /\
  VTime 500 <> VTime 900 /\
  reference_time 500 (Some 900%R) = 900%R.
Proof. repeat split. discriminate. Qed.

End DecayReferenceFacts.

(* ===================================================================== *)
(** * 9. More on the memory id conversions and the request paths          *)
(* ===================================================================== *)

Module GoRequestsFacts.
Import GoClient Precision GoRequests GoClientFacts.

Local Open Scope string_scope.
Local Open Scope Z_scope.

(** ** Digits *)

Lemma digit_char_digit_of c d : digit_of c = Some d -> digit_char d = c.
Proof.
  unfold digit_of, digit_char. destruct (_ && _); [|done].
  intros [= <-]. replace (48 + (Z.of_N (N_of_ascii c) - 48))
    with (Z.of_N (N_of_ascii c)) by lia.
  rewrite N2Z.id. apply ascii_N_embedding.
Qed.

Lemma is_digit_iff c : is_digit c = true <-> exists d, digit_of c = Some d.
Proof.
  unfold is_digit. destruct (digit_of c) as [d|]; split; try done.
  - by exists d.
  - by intros [d [=]].
Qed.

Lemma digit_of_zero c : digit_of c = Some 0 <-> c = "0"%char.
Proof.
  split; [|by intros ->].
  intros H. apply digit_char_digit_of in H. by subst.
Qed.

(** ** The unbounded value of a digit string and [ParseUint] *)

Lemma digits_value_ge s : forall n v,
  0 <= n -> digits_value n s = Some v -> n * 10 ^ Z.of_nat (String.length s) <= v.
Proof.
  induction s as [|c s IH]; intros n v Hn; cbn [digits_value String.length].
  - intros [= <-]. change (10 ^ Z.of_nat 0) with 1. lia.
  - destruct (digit_of c) as [d|] eqn:Hd; [|done].
    pose proof (digit_of_range _ _ Hd).
    intros Hv. apply IH in Hv; [|lia].
    rewrite Nat2Z.inj_succ, Z.pow_succ_r by lia.
    pose proof (Z.pow_pos_nonneg 10 (Z.of_nat (String.length s))
                  ltac:(lia) ltac:(lia)).
    nia.
Qed.

Lemma digits_value_mono s n v : 0 <= n -> digits_value n s = Some v -> n <= v.
Proof.
  intros Hn Hv. pose proof (digits_value_ge s n v Hn Hv).
  pose proof (Z.pow_pos_nonneg 10 (Z.of_nat (String.length s))
                ltac:(lia) ltac:(lia)).
  nia.
Qed.

Lemma ParseUint_loop_value s : forall n u,
  ParseUint_loop n s = inr u -> digits_value n s = Some u.
Proof.
  induction s as [|c s IH]; intros n u; cbn [ParseUint_loop digits_value].
  - by intros [= <-].
  - destruct (digit_of c) as [d|]; [|done].
    destruct (maxUint64 / 10 + 1 <=? n); [done|].
    destruct (maxUint64 <? n * 10 + d); [done|]. apply IH.
Qed.

Lemma ParseUint_loop_complete s : forall n u,
  0 <= n -> digits_value n s = Some u -> u <= maxUint64 ->
  ParseUint_loop n s = inr u.
Proof.
  induction s as [|c s IH]; intros n u Hn; cbn [ParseUint_loop digits_value].
  - by intros [= <-].
  - destruct (digit_of c) as [d|] eqn:Hd; [|done].
    pose proof (digit_of_range _ _ Hd).
    intros Hv Hu. assert (0 <= n * 10 + d) as Hn' by lia.
    pose proof (digits_value_mono _ _ _ Hn' Hv) as Hle.
    unfold maxUint64 in *.
    destruct (_ <=? n) eqn:E1.
    { apply Z.leb_le in E1.
      change ((2 ^ 64 - 1) / 10 + 1) with 1844674407370955162 in E1. lia. }
    destruct (_ <? n * 10 + d) eqn:E2; [apply Z.ltb_lt in E2; lia|].
    apply IH; [lia|done|done].
Qed.

Lemma ParseUint_loop_overflow s : forall n u,
  0 <= n <= maxUint64 -> digits_value n s = Some u -> maxUint64 < u ->
  ParseUint_loop n s = inl ErrRange.
Proof.
  induction s as [|c s IH]; intros n u Hn; cbn [ParseUint_loop digits_value].
  - intros [= <-]. lia.
  - destruct (digit_of c) as [d|] eqn:Hd; [|done].
    pose proof (digit_of_range _ _ Hd).
    intros Hv Hu.
    destruct (_ <=? n); [done|].
    destruct (_ <? n * 10 + d) eqn:E2; [done|].
    apply Z.ltb_ge in E2. eapply IH; [|done..]. lia.
Qed.

Lemma ParseUint_value s u :
  ParseUint s = inr u <->
  s <> EmptyString /\ digits_value 0 s = Some u /\ u <= maxUint64.
Proof.
  destruct s as [|c s]; [split; [done|by intros [? _]]|].
  unfold ParseUint. split.
  - intros H. split; [done|]. split; [by apply ParseUint_loop_value|].
    eapply ParseUint_loop_range; [|exact H]. unfold maxUint64. lia.
  - intros (_ & Hv & Hu). by apply ParseUint_loop_complete.
Qed.

Lemma ParseUint_overflow s u :
  digits_value 0 s = Some u -> maxUint64 < u -> ParseUint s = inl ErrRange.
Proof.
  destruct s as [|c s]; [intros [= <-]; unfold maxUint64; lia|].
  unfold ParseUint. apply ParseUint_loop_overflow. unfold maxUint64. lia.
Qed.

Lemma ParseInt_plus s :
  ParseInt (String "+" s)
  = match ParseUint s with
    | inl e => inl e
    | inr un => if 2 ^ 63 <=? un then inl ErrRange else inr un
    end.
Proof. reflexivity. Qed.

Lemma ParseInt_unsigned c s :
  c <> "+"%char -> c <> "-"%char ->
  ParseInt (String c s)
  = match ParseUint (String c s) with
    | inl e => inl e
    | inr un => if 2 ^ 63 <=? un then inl ErrRange else inr un
    end.
Proof.
  intros H1%Ascii.eqb_neq H2%Ascii.eqb_neq. unfold ParseInt.
  by rewrite H1, H2.
Qed.

Lemma signed_decimal_unsigned c s :
  c <> "+"%char -> c <> "-"%char ->
  signed_decimal (String c s) = digits_value 0 (String c s).
Proof.
  intros H1%Ascii.eqb_neq H2%Ascii.eqb_neq. unfold signed_decimal.
  by rewrite H1, H2.
Qed.

Lemma digits_value_nonneg s n v : 0 <= n -> digits_value n s = Some v -> 0 <= v.
Proof. intros Hn Hv. pose proof (digits_value_mono s n v Hn Hv). lia. Qed.

(** [ParseInt] returns [z] exactly on an optional sign followed by
    digits whose value [z] fits in an int64. *)
Lemma ParseInt_signed_decimal s z :
  ParseInt s = inr z <-> signed_decimal s = Some z /\ is_int64 z.
Proof.
  unfold is_int64, minInt64, maxInt64.
  destruct s as [|c s]; [split; [done|by intros [? _]]|].
  destruct (decide (c = "+"%char)) as [->|Hplus];
    [|destruct (decide (c = "-"%char)) as [->|Hminus]].
  - rewrite ParseInt_plus. cbn [signed_decimal Ascii.eqb Bool.eqb andb].
    destruct (ParseUint s) as [e|un] eqn:E.
    + split; [done|]. intros [Hs Hz]. exfalso.
      destruct s as [|c' s']; [done|].
      assert (ParseUint (String c' s') = inr z); [|congruence].
      apply ParseUint_value. unfold maxUint64. repeat split; [done|done|lia].
    + apply ParseUint_value in E as (Hne & Hv & Hu).
      pose proof (digits_value_nonneg _ _ _ ltac:(done) Hv).
      destruct s as [|c' s']; [done|]. rewrite Hv.
      destruct (2 ^ 63 <=? un) eqn:E'.
      * apply Z.leb_le in E'. split; [done|]. intros [[= <-] ?]. lia.
      * apply Z.leb_gt in E'. split.
        -- intros [= <-]. split; [done|lia].
        -- by intros [[= <-] _].
  - rewrite ParseInt_minus. cbn [signed_decimal Ascii.eqb Bool.eqb andb].
    destruct (ParseUint s) as [e|un] eqn:E.
    + split; [done|]. intros [Hs Hz]. exfalso.
      destruct s as [|c' s']; [done|].
      destruct (digits_value 0 (String c' s')) as [un|] eqn:Hv; [|done].
      injection Hs as <-.
      assert (ParseUint (String c' s') = inr un); [|congruence].
      apply ParseUint_value. unfold maxUint64. repeat split; [done|done|lia].
    + apply ParseUint_value in E as (Hne & Hv & Hu).
      pose proof (digits_value_nonneg _ _ _ ltac:(done) Hv).
      destruct s as [|c' s']; [done|]. rewrite Hv. cbn [fmap option_fmap option_map].
      destruct (2 ^ 63 <? un) eqn:E'.
      * apply Z.ltb_lt in E'. split; [done|]. intros [[= <-] ?]. lia.
      * apply Z.ltb_ge in E'. split.
        -- intros [= <-]. split; [done|lia].
        -- by intros [[= <-] _].
  - rewrite ParseInt_unsigned, signed_decimal_unsigned by done.
    destruct (ParseUint (String c s)) as [e|un] eqn:E.
    + split; [done|]. intros [Hs Hz]. exfalso.
      assert (ParseUint (String c s) = inr z); [|congruence].
      apply ParseUint_value. unfold maxUint64. repeat split; [done|done|lia].
    + apply ParseUint_value in E as (Hne & Hv & Hu).
      pose proof (digits_value_nonneg _ _ _ ltac:(done) Hv).
      rewrite Hv.
      destruct (2 ^ 63 <=? un) eqn:E'.
      * apply Z.leb_le in E'. split; [done|]. intros [[= <-] ?]. lia.
      * apply Z.leb_gt in E'. split.
        -- intros [= <-]. split; [done|lia].
        -- by intros [[= <-] _].
Qed.

(** A well-formed decimal outside the int64 range is a range error. *)
Lemma ParseInt_out_of_range s z :
  signed_decimal s = Some z -> ~ is_int64 z -> ParseInt s = inl ErrRange.
Proof.
  unfold is_int64, minInt64, maxInt64.
  assert (forall s un, digits_value 0 s = Some un ->
            ParseUint s = inl ErrRange \/
            (ParseUint s = inr un /\ 0 <= un) \/ s = EmptyString) as Hcases.
  { intros s' un Hv. pose proof (digits_value_nonneg _ _ _ ltac:(done) Hv).
    destruct (decide (s' = EmptyString)) as [->|Hne]; [by right; right|].
    destruct (decide (un <= maxUint64)).
    - right; left. split; [|done]. by apply ParseUint_value.
    - left. eapply ParseUint_overflow; [done|lia]. }
  destruct s as [|c s]; [done|].
  destruct (decide (c = "+"%char)) as [->|Hplus];
    [|destruct (decide (c = "-"%char)) as [->|Hminus]].
  - rewrite ParseInt_plus. cbn [signed_decimal Ascii.eqb Bool.eqb andb].
    destruct s as [|c' s']; [done|]. intros Hv Hz.
    destruct (Hcases _ _ Hv) as [->|[[-> ?]|?]]; [done| |done].
    destruct (2 ^ 63 <=? z) eqn:E'; [done|]. apply Z.leb_gt in E'. lia.
  - rewrite ParseInt_minus. cbn [signed_decimal Ascii.eqb Bool.eqb andb].
    destruct s as [|c' s']; [done|].
    destruct (digits_value 0 (String c' s')) as [un|] eqn:Hv; [|done].
    intros [= <-] Hz.
    destruct (Hcases _ _ Hv) as [->|[[-> ?]|?]]; [done| |done].
    destruct (2 ^ 63 <? un) eqn:E'; [done|]. apply Z.ltb_ge in E'. lia.
  - rewrite ParseInt_unsigned, signed_decimal_unsigned by done.
    intros Hv Hz.
    destruct (Hcases _ _ Hv) as [->|[[-> ?]|?]]; [done| |done].
    destruct (2 ^ 63 <=? z) eqn:E'; [done|]. apply Z.leb_gt in E'. lia.
Qed.

(** X5. [UnmarshalJSON] on a JSON string: when the string is an optional
    sign followed by decimal digits, the id becomes the value of that
    decimal if it fits in an int64, and the call fails with a range
    error (id unchanged) if it does not; on any other string the call
    fails and the id is unchanged. *)
Theorem UnmarshalJSON_string_value (m : MemoryID) (s : string) :
  match signed_decimal s with
  | Some z =>
      UnmarshalJSON m (Doc (JString s))
      = if (minInt64 <=? z) && (z <=? maxInt64) then (z, None)
        else (m, Some ErrRange)
  | None => exists err, UnmarshalJSON m (Doc (JString s)) = (m, Some err)
  end.
Proof.
  unfold UnmarshalJSON. cbn [Unmarshal_int64 Unmarshal_string].
  destruct (signed_decimal s) as [z|] eqn:Hs.
  - destruct (_ && _) eqn:E.
    + apply andb_true_iff in E as [E1%Z.leb_le E2%Z.leb_le].
      assert (ParseInt s = inr z) as ->; [|done].
      apply ParseInt_signed_decimal. by split.
    + rewrite (ParseInt_out_of_range s z Hs); [done|].
      intros [H1%Z.leb_le H2%Z.leb_le]. by rewrite H1, H2 in E.
  - destruct (ParseInt s) as [err|z] eqn:E; [by exists err|].
    apply ParseInt_signed_decimal in E as [E _]. congruence.
Qed.

(** ** The shape of [String()] *)

Lemma string_app_cons c (s t : string) : String c s +:+ t = String c (s +:+ t).
Proof. reflexivity. Qed.

Lemma string_app_nil_r (s : string) : s +:+ "" = s.
Proof.
  induction s as [|c s IH]; [done|]. by rewrite string_app_cons, IH.
Qed.

Lemma string_app_assoc (s1 s2 s3 : string) :
  (s1 +:+ s2) +:+ s3 = s1 +:+ (s2 +:+ s3).
Proof.
  induction s1 as [|c s1 IH]; [done|]. by rewrite !string_app_cons, IH.
Qed.

Lemma string_app_inv_head (s t1 t2 : string) : s +:+ t1 = s +:+ t2 -> t1 = t2.
Proof.
  induction s as [|c s IH]; [done|]. rewrite !string_app_cons.
  intros [= H]. auto.
Qed.

Lemma format_digits_shape fuel : forall n acc,
  (0 < fuel)%nat -> 0 <= n < 10 ^ Z.of_nat fuel -> all_digits acc = true ->
  exists c rest,
    format_digits fuel n acc = String c rest /\
    is_digit c = true /\ all_digits rest = true /\
    (c = "0"%char -> n = 0 /\ rest = acc).
Proof.
  induction fuel as [|fuel IH]; intros n acc Hfuel Hn Hacc; [lia|].
  cbn [format_digits].
  pose proof (Z.mod_pos_bound n 10 ltac:(lia)) as Hmod.
  assert (is_digit (digit_char (n mod 10)) = true) as Hd.
  { apply is_digit_iff. exists (n mod 10). apply digit_of_digit_char. lia. }
  destruct (n <? 10) eqn:E.
  - apply Z.ltb_lt in E. eexists _, _. split; [done|]. split; [done|].
    split; [done|]. intros Hc. split; [|done].
    rewrite Z.mod_small in Hc by lia.
    pose proof (digit_of_digit_char n ltac:(lia)) as Hn'.
    rewrite Hc in Hn'. by injection Hn' as <-.
  - apply Z.ltb_ge in E.
    assert (1 <= n / 10) by (apply Z.div_le_lower_bound; lia).
    rewrite Nat2Z.inj_succ, Z.pow_succ_r in Hn by lia.
    assert (n / 10 < 10 ^ Z.of_nat fuel)
      by (apply Z.div_lt_upper_bound; lia).
    destruct fuel as [|fuel'].
    { change (10 ^ Z.of_nat 0) with 1 in *. lia. }
    destruct (IH (n / 10) (String (digit_char (n mod 10)) acc))
      as (c & rest & Hf & Hc & Hrest & Hzero); [lia|lia| |].
    { cbn [all_digits]. by rewrite Hd, Hacc. }
    exists c, rest. split; [done|]. split; [done|]. split; [done|].
    intros Hc0. destruct (Hzero Hc0). lia.
Qed.

Lemma FormatUint_canonical n :
  0 <= n <= maxUint64 ->
  canonical_digits (FormatUint n) = true /\
  (FormatUint n = "0" -> n = 0).
Proof.
  unfold maxUint64. intros Hn.
  destruct (format_digits_shape 20 n EmptyString)
    as (c & rest & Hf & Hc & Hrest & Hzero); [lia| |done|].
  { change (10 ^ Z.of_nat 20) with 100000000000000000000. lia. }
  unfold FormatUint. rewrite Hf. split.
  - cbn [canonical_digits]. destruct rest as [|c' rest']; [done|].
    rewrite Hc, Hrest. cbn [andb].
    destruct (Ascii.eqb c "0") eqn:E; [|done].
    apply Ascii.eqb_eq in E. by destruct (Hzero E).
  - intros [= -> ->]. by destruct Hzero.
Qed.

(** X3. [String()] writes an int64 in canonical decimal form: an optional
    minus sign, then digits without a leading zero (or the single digit
    0), never "-0"; so it is a JSON integer literal and needs no escaping
    in a URL path. *)
Theorem String_canonical (m : MemoryID) :
  is_int64 m -> canonical_decimal (String_ m) = true.
Proof.
  unfold is_int64, minInt64, maxInt64, String_, FormatInt. intros Hm.
  destruct (m <? 0) eqn:E.
  - apply Z.ltb_lt in E.
    destruct (FormatUint_canonical (- m)) as [Hc Hz]; [unfold maxUint64; lia|].
    cbn [canonical_decimal]. rewrite Hc. cbn [andb].
    destruct (String.eqb (FormatUint (- m)) "0") eqn:E'; [|done].
    apply String.eqb_eq in E'. apply Hz in E'. lia.
  - apply Z.ltb_ge in E.
    destruct (FormatUint_canonical m) as [Hc _]; [unfold maxUint64; lia|].
    destruct (FormatUint m) as [|c s] eqn:Hf; [done|].
    assert (c <> "-"%char) as Hminus.
    { intros ->. destruct s; discriminate Hc. }
    unfold canonical_decimal.
    destruct c as [[] [] [] [] [] [] [] []]; try done.
Qed.

Lemma String_canonical_witness :
  is_int64 (-653247040368672768) /\
  canonical_decimal (String_ (-653247040368672768)) = true.
Proof.
  assert (is_int64 (-653247040368672768)) as H
    by (unfold is_int64, minInt64, maxInt64; lia).
  split; [exact H|]. exact (String_canonical _ H).
Defined.

(** ** From a decimal string to the id and back *)

Lemma format_digits_value s : forall n f acc v,
  0 < n -> digits_value n s = Some v ->
  format_digits (String.length s + f) v acc = format_digits f n (s +:+ acc).
Proof.
  induction s as [|c s IH]; intros n f acc v Hn; cbn [digits_value String.length].
  - by intros [= <-].
  - destruct (digit_of c) as [d|] eqn:Hd; [|done].
    pose proof (digit_of_range _ _ Hd) as Hr.
    intros Hv. replace (S (String.length s) + f)%nat
      with (String.length s + S f)%nat by lia.
    rewrite (IH (n * 10 + d) (S f) acc v) by (lia || done).
    cbn [format_digits].
    replace ((n * 10 + d) mod 10) with d
      by (apply Z.mod_unique_pos with n; lia).
    replace ((n * 10 + d) / 10) with n
      by (apply Z.div_unique_pos with d; lia).
    rewrite (digit_char_digit_of _ _ Hd).
    destruct (n * 10 + d <? 10) eqn:E; [apply Z.ltb_lt in E; lia|done].
Qed.

Lemma FormatUint_digits_value s v :
  canonical_digits s = true -> digits_value 0 s = Some v -> v <= maxUint64 ->
  FormatUint v = s.
Proof.
  unfold maxUint64. destruct s as [|c s]; [done|].
  cbn [canonical_digits digits_value].
  destruct (digit_of c) as [d|] eqn:Hd;
    [|by destruct s; unfold is_digit; rewrite Hd].
  pose proof (digit_of_range _ _ Hd) as Hr.
  change (0 * 10 + d) with d. 
  destruct s as [|c' s'].
  - intros _ [= <-] _. unfold FormatUint. cbn [format_digits].
    rewrite Z.mod_small by lia. rewrite (digit_char_digit_of _ _ Hd).
    destruct (d <? 10) eqn:E; [done|apply Z.ltb_ge in E; lia].
  - intros Hc Hv Hmax.
    apply andb_true_iff in Hc as [Hc _]. apply andb_true_iff in Hc as [_ Hc].
    assert (0 < d) as Hpos.
    { destruct (decide (d = 0)) as [->|]; [|lia].
      apply digit_of_zero in Hd as ->. done. }
    assert (0 <= d) as Hd0 by lia.
    pose proof (digits_value_ge _ _ _ Hd0 Hv) as Hge.
    set (k := String.length (String c' s')) in *.
    assert (k < 20)%nat as Hk.
    { destruct (decide (k < 20)%nat); [done|]. exfalso.
      assert (10 ^ 20 <= 10 ^ Z.of_nat k)
        by (apply Z.pow_le_mono_r; lia).
      change (10 ^ 20) with 100000000000000000000 in *. nia. }
    unfold FormatUint.
    replace 20%nat with (k + S (19 - k))%nat by lia.
    rewrite (format_digits_value (String c' s') d _ EmptyString v Hpos Hv).
    rewrite string_app_nil_r. cbn [format_digits].
    rewrite Z.mod_small by lia. rewrite (digit_char_digit_of _ _ Hd).
    destruct (d <? 10) eqn:E; [done|apply Z.ltb_ge in E; lia].
Qed.

Lemma canonical_decimal_unsigned c s :
  c <> "-"%char ->
  canonical_decimal (String c s) = canonical_digits (String c s).
Proof. intros H. destruct c as [[] [] [] [] [] [] [] []]; done. Qed.

Lemma canonical_digits_head c s :
  canonical_digits (String c s) = true -> is_digit c = true.
Proof.
  cbn [canonical_digits]. destruct s; [done|].
  intros [[H _]%andb_true_iff _]%andb_true_iff. done.
Qed.

(** X4. An id read from a canonical decimal string is written back by
    [String()] as that same string. *)
Theorem String_ParseInt (s : string) (z : Z) :
  canonical_decimal s = true -> ParseInt s = inr z -> String_ z = s.
Proof.
  intros Hc Hp. unfold String_, FormatInt.
  destruct s as [|c s]; [done|].
  destruct (decide (c = "-"%char)) as [->|Hminus].
  - cbn [canonical_decimal] in Hc.
    apply andb_true_iff in Hc as [Hc Hnz].
    rewrite ParseInt_minus in Hp.
    destruct (ParseUint s) as [e|un] eqn:E; [done|].
    apply ParseUint_value in E as (_ & Hv & Hmax).
    pose proof (digits_value_nonneg _ _ _ ltac:(done) Hv) as Hun.
    pose proof (FormatUint_digits_value s un Hc Hv Hmax) as Hf.
    destruct (2 ^ 63 <? un); [done|]. injection Hp as <-.
    assert (un <> 0) as Hne.
    { intros ->. rewrite <- Hf in Hnz. done. }
    destruct (- un <? 0) eqn:E'; [|apply Z.ltb_ge in E'; lia].
    by rewrite Z.opp_involutive, Hf.
  - rewrite canonical_decimal_unsigned in Hc by done.
    assert (c <> "+"%char) as Hplus.
    { intros ->. by apply canonical_digits_head in Hc. }
    rewrite ParseInt_unsigned in Hp by done.
    destruct (ParseUint (String c s)) as [e|un] eqn:E; [done|].
    apply ParseUint_value in E as (_ & Hv & Hmax).
    pose proof (digits_value_nonneg _ _ _ ltac:(done) Hv) as Hun.
    destruct (2 ^ 63 <=? un); [done|]. injection Hp as <-.
    destruct (un <? 0) eqn:E'; [apply Z.ltb_lt in E'; lia|].
    by apply FormatUint_digits_value.
Qed.

Lemma String_ParseInt_witness :
  canonical_decimal "653247040368672768" = true /\
  ParseInt "653247040368672768" = inr 653247040368672768 /\
  String_ 653247040368672768 = "653247040368672768".
Proof.
  assert (canonical_decimal "653247040368672768" = true) as Hc by reflexivity.
  assert (ParseInt "653247040368672768" = inr 653247040368672768) as Hp
    by reflexivity.
  split; [exact Hc|]. split; [exact Hp|]. exact (String_ParseInt _ _ Hc Hp).
Defined.

(** ** Request paths *)

Lemma all_digits_lacks (x : ascii) (s : string) :
  is_digit x = false -> all_digits s = true -> lacks x s.
Proof.
  intros Hx. induction s as [|c s IH]; [done|]. cbn [all_digits lacks].
  intros [Hc Hs]%andb_true_iff. split; [|by apply IH]. congruence.
Qed.

Lemma canonical_digits_all s : canonical_digits s = true -> all_digits s = true.
Proof.
  destruct s as [|c [|c' s']]; [done| |]; cbn [canonical_digits all_digits].
  - intros ->. done.
  - intros [[-> _]%andb_true_iff ->]%andb_true_iff. done.
Qed.

Lemma canonical_decimal_lacks (x : ascii) (s : string) :
  is_digit x = false -> x <> "-"%char -> canonical_decimal s = true ->
  lacks x s.
Proof.
  intros Hx Hminus Hc. destruct s as [|c s]; [done|].
  destruct (decide (c = "-"%char)) as [->|Hc'].
  - cbn [canonical_decimal] in Hc. apply andb_true_iff in Hc as [Hc _].
    split; [done|]. by apply all_digits_lacks, canonical_digits_all.
  - rewrite canonical_decimal_unsigned in Hc by done.
    by apply all_digits_lacks, canonical_digits_all.
Qed.

Lemma FormatInt_lacks (x : ascii) (m : Z) :
  is_digit x = false -> x <> "-"%char -> is_int64 m -> lacks x (FormatInt m).
Proof.
  unfold is_int64, minInt64, maxInt64, FormatInt. intros Hx Hminus Hm.
  destruct (m <? 0) eqn:E.
  - apply Z.ltb_lt in E. split; [done|].
    apply all_digits_lacks, canonical_digits_all; [done|].
    apply FormatUint_canonical. unfold maxUint64. lia.
  - apply Z.ltb_ge in E.
    apply all_digits_lacks, canonical_digits_all; [done|].
    apply FormatUint_canonical. unfold maxUint64. lia.
Qed.

Lemma segment_unique (s1 : string) : forall s2 t1 t2 : string,
  lacks "?" s1 -> lacks "?" s2 ->
  (t1 = "" \/ exists q, t1 = "?" +:+ q) ->
  (t2 = "" \/ exists q, t2 = "?" +:+ q) ->
  s1 +:+ t1 = s2 +:+ t2 -> s1 = s2.
Proof.
  induction s1 as [|c s1 IH]; intros s2 t1 t2 H1 H2 Ht1 Ht2 E.
  - destruct s2 as [|c2 s2]; [done|]. exfalso.
    rewrite string_app_cons in E. cbn in E. destruct H2 as [Hc2 _].
    destruct Ht1 as [->|[q ->]]; [done|].
    injection E as E _. congruence.
  - rewrite string_app_cons in E. destruct H1 as [Hc H1].
    destruct s2 as [|c2 s2].
    + exfalso. cbn in E. destruct Ht2 as [->|[q ->]]; [done|].
      injection E as E _. congruence.
    + rewrite string_app_cons in E. injection E as -> E.
      f_equal. destruct H2 as [_ H2]. exact (IH s2 t1 t2 H1 H2 Ht1 Ht2 E).
Qed.

Lemma String_inj (m1 m2 : MemoryID) :
  is_int64 m1 -> is_int64 m2 -> String_ m1 = String_ m2 -> m1 = m2.
Proof.
  intros H1 H2 E. pose proof (ParseInt_FormatInt m1 H1) as P1.
  pose proof (ParseInt_FormatInt m2 H2) as P2.
  unfold String_ in E. rewrite E in P1. congruence.
Qed.

Section PathFacts.
Variable Encode : Values -> string.

Lemma with_query_tail (path : string) (params : Values) :
  exists tail, with_query Encode path params = path +:+ tail /\
    (tail = "" \/ exists query, tail = "?" +:+ query).
Proof.
  unfold with_query. destruct (decide _).
  - eexists. split; [done|]. right. by eexists.
  - exists "". split; [by rewrite string_app_nil_r|by left].
Qed.

(** X6. The requests of [GetMemory], [UpdateMemory] and [DeleteMemory]
    for an id go to the path of that id (followed by a query string at
    most), and a path belongs to one id only: two int64 ids whose
    requests have the same path are equal. *)
Theorem memory_requests_address (memoryID : MemoryID) (userID agentID : string) :
  addresses (snd (GetMemory_request Encode memoryID userID agentID)) memoryID /\
  addresses (snd (UpdateMemory_request memoryID)) memoryID /\
  addresses (snd (DeleteMemory_request Encode memoryID userID agentID)) memoryID /\
  (forall path id1 id2, is_int64 id1 -> is_int64 id2 ->
     addresses path id1 -> addresses path id2 -> id1 = id2).
Proof.
  repeat split.
  - apply with_query_tail.
  - exists "". split; [by rewrite string_app_nil_r|by left].
  - apply with_query_tail.
  - intros path id1 id2 H1 H2 (t1 & -> & Ht1) (t2 & E & Ht2).
    unfold memory_path in E. rewrite !string_app_assoc in E.
    apply string_app_inv_head in E.
    apply String_inj; [done..|].
    eapply segment_unique; [| |exact Ht1|exact Ht2|exact E].
    + by apply FormatInt_lacks.
    + by apply FormatInt_lacks.
Qed.

End PathFacts.

Lemma memory_requests_address_witness :
  is_int64 653247040368672768 /\ is_int64 653423919000190976 /\
  snd (GetMemory_request sample_Encode 653247040368672768 "" "")
  <> snd (DeleteMemory_request sample_Encode 653423919000190976 "" "").
Proof.
  assert (is_int64 653247040368672768) as H1
    by (unfold is_int64, minInt64, maxInt64; lia).
  assert (is_int64 653423919000190976) as H2
    by (unfold is_int64, minInt64, maxInt64; lia).
  split; [exact H1|]. split; [exact H2|]. intros E.
  destruct (memory_requests_address sample_Encode 653247040368672768 "" "")
    as (Hget & _ & _ & Huniq).
  destruct (memory_requests_address sample_Encode 653423919000190976 "" "")
    as (_ & _ & Hdel & _).
  rewrite <- E in Hdel.
  pose proof (Huniq _ _ _ H1 H2 Hget Hdel) as Heq. discriminate Heq.
Defined.

(** ** Query parameters *)

Lemma lookup_set_nonempty (k v k' : string) (params : Values) :
  set_nonempty k v params !! k'
  = if decide (k = k' /\ v <> "") then Some v else params !! k'.
Proof.
  unfold set_nonempty. destruct (decide (v = "")) as [->|Hv].
  - destruct (decide _) as [[_ ?]|]; done.
  - destruct (decide (k = k')) as [->|Hk].
    + rewrite lookup_insert_eq. destruct (decide _) as [|[]]; done.
    + rewrite lookup_insert_ne by done. destruct (decide _) as [[? _]|]; done.
Qed.

Lemma lookup_set_positive (k k' : string) (n : Z) (params : Values) :
  set_positive k n params !! k'
  = if decide (k = k' /\ 0 < n) then Some (FormatInt n) else params !! k'.
Proof.
  unfold set_positive. destruct (0 <? n) eqn:E.
  - apply Z.ltb_lt in E. destruct (decide (k = k')) as [->|Hk].
    + rewrite lookup_insert_eq. destruct (decide _) as [|[]]; done.
    + rewrite lookup_insert_ne by done. destruct (decide _) as [[? _]|]; done.
  - apply Z.ltb_ge in E. destruct (decide _) as [[_ ?]|]; [lia|done].
Qed.

Lemma FormatInt_nonempty (n : Z) : is_int64 n -> FormatInt n <> "".
Proof.
  intros Hn E. pose proof (ParseInt_FormatInt n Hn) as H.
  rewrite E in H. discriminate H.
Qed.

Ltac query_lookups :=
  rewrite ?lookup_set_nonempty, ?lookup_set_positive, ?lookup_set_nonempty,
    ?lookup_empty.

Ltac drop_key_guards :=
  repeat match goal with
  | H : ~ (?k = ?k /\ ?P) |- _ =>
      assert (~ P) by (intros ?; apply H; by split); clear H
  | H : ~ (_ = _ /\ _) |- _ => clear H
  end.

Ltac query_cases :=
  repeat case_decide; destruct_and?; simplify_eq; drop_key_guards;
  try done; try lia;
  try (intros; simplify_eq; done);
  try (split; intros; destruct_and?; simplify_eq; done || lia).

(** X7. [ListMemories] sends a parameter only under one of its six names
    and never with an empty value; [limit] and [offset] are sent exactly
    when they are positive, and then as decimals that read back as the
    field; the four text fields are sent exactly when they are not
    empty, unchanged. *)
Theorem ListMemories_query_sound (params : ListMemoriesParams) :
  is_int64 (Limit params) -> is_int64 (Offset params) ->
  let q := ListMemories_query params in
  (forall k v, q !! k = Some v ->
     v <> "" /\
     k ∈ ["user_id"; "agent_id"; "limit"; "offset"; "sort_by"; "order"]) /\
  (q !! "limit" = None <-> Limit params <= 0) /\
  (forall v, q !! "limit" = Some v -> ParseInt v = inr (Limit params)) /\
  (q !! "offset" = None <-> Offset params <= 0) /\
  (forall v, q !! "offset" = Some v -> ParseInt v = inr (Offset params)) /\
  (forall v, q !! "user_id" = Some v <-> v = UserID params /\ v <> "") /\
  (forall v, q !! "agent_id" = Some v <-> v = AgentID params /\ v <> "") /\
  (forall v, q !! "sort_by" = Some v <-> v = SortBy params /\ v <> "") /\
  (forall v, q !! "order" = Some v <-> v = Order params /\ v <> "").
Proof.
  intros Hl Ho q. subst q. unfold ListMemories_query.
  pose proof (FormatInt_nonempty _ Hl) as Hln.
  pose proof (FormatInt_nonempty _ Ho) as Hon.
  pose proof (ParseInt_FormatInt _ Hl) as Hlp.
  pose proof (ParseInt_FormatInt _ Ho) as Hop.
  split_and!.
  - intros k v. query_lookups.
    repeat (destruct (decide _) as [[<- ?]|_];
            [intros [= <-]; split; [done|set_solver]|]).
    done.
  - query_lookups. query_cases.
  - intros v. query_lookups. query_cases.
  - query_lookups. query_cases.
  - intros v. query_lookups. query_cases.
  - intros v. query_lookups. query_cases.
  - intros v. query_lookups. query_cases.
  - intros v. query_lookups. query_cases.
  - intros v. query_lookups. query_cases.
Qed.

Lemma ListMemories_query_sound_witness :
  is_int64 (Limit DefaultListParams) /\ is_int64 (Offset DefaultListParams) /\
  ListMemories_query DefaultListParams !! "limit" = Some "100" /\
  ParseInt "100" = inr 100 /\
  ListMemories_query DefaultListParams !! "offset" = None.
Proof.
  assert (is_int64 (Limit DefaultListParams)) as Hl
    by (unfold is_int64, minInt64, maxInt64; cbn; lia).
  assert (is_int64 (Offset DefaultListParams)) as Ho
    by (unfold is_int64, minInt64, maxInt64; cbn; lia).
  destruct (ListMemories_query_sound DefaultListParams Hl Ho)
    as (_ & _ & Hlimit & Hoffset & _).
  assert (ListMemories_query DefaultListParams !! "limit" = Some "100") as Hk
    by reflexivity.
  split; [exact Hl|]. split; [exact Ho|]. split; [exact Hk|].
  split; [exact (Hlimit _ Hk)|].
  apply Hoffset. cbn. lia.
Defined.

Lemma UnmarshalJSON_MarshalJSON_witness :
  is_int64 (2 ^ 63 - 1) /\
  UnmarshalJSON 0 (fst (MarshalJSON (2 ^ 63 - 1))) = (2 ^ 63 - 1, None).
Proof.
  assert (is_int64 (2 ^ 63 - 1)) as H
    by (unfold is_int64, minInt64, maxInt64; lia).
  split; [exact H|]. exact (UnmarshalJSON_MarshalJSON 0 _ H).
Defined.

Lemma UnmarshalJSON_String_witness :
  is_int64 (- 2 ^ 63) /\
  UnmarshalJSON 0 (Doc (JString (String_ (- 2 ^ 63)))) = (- 2 ^ 63, None).
Proof.
  assert (is_int64 (- 2 ^ 63)) as H
    by (unfold is_int64, minInt64, maxInt64; lia).
  split; [exact H|]. exact (UnmarshalJSON_String 0 _ H).
Defined.

(** With the default parameters the query is [limit=100] and
    [order=desc]; the zero offset is not sent. *)
Example ListMemories_default_query :
  ListMemories_query DefaultListParams
  = <["limit" := "100"]> (<["order" := "desc"]> ∅).
Proof. by vm_compute. Qed.

End GoRequestsFacts.

(* ===================================================================== *)
(** * 10. Ids below 2^53 as JavaScript numbers                            *)
(* ===================================================================== *)

Module PrecisionFacts.
Import GoClient Precision GoRequests GoClientFacts GoRequestsFacts.

Local Open Scope string_scope.
Local Open Scope Z_scope.

Lemma nearest_double_safe z : Z.abs z < 2 ^ 53 -> nearest_double z = z.
Proof.
  intros H. unfold nearest_double.
  destruct (Z.abs z <? 2 ^ 53) eqn:E; [done|]. apply Z.ltb_ge in E. lia.
Qed.

(** Rounding never takes a number from the range where doubles have
    gaps into the range where they have none. *)
Lemma nearest_double_large z :
  2 ^ 53 <= Z.abs z -> 2 ^ 53 <= Z.abs (nearest_double z).
Proof.
  intros H. unfold nearest_double.
  destruct (Z.abs z <? 2 ^ 53) eqn:E; [apply Z.ltb_lt in E; lia|].
  set (a := Z.abs z) in *. set (e := Z.log2 a - 52).
  assert (0 < a) as Ha by lia.
  pose proof (Z.log2_spec a Ha) as [Hlo _].
  assert (53 <= Z.log2 a) as Hl.
  { change 53 with (Z.log2 (2 ^ 53)). apply Z.log2_le_mono. lia. }
  assert (1 <= e) as He by (unfold e; lia).
  assert (0 < 2 ^ e) as Hpe by (apply Z.pow_pos_nonneg; lia).
  assert (2 ^ Z.log2 a = 2 ^ 52 * 2 ^ e) as Hsplit.
  { rewrite <- Z.pow_add_r by lia. f_equal. unfold e. lia. }
  assert (2 ^ 52 <= a / 2 ^ e) as Hq.
  { apply Z.div_le_lower_bound; lia. }
  set (q := a / 2 ^ e) in *.
  match goal with
  | |- context [if ?b then q + 1 else q] =>
      set (q' := if b then q + 1 else q)
  end.
  assert (q <= q') as Hq' by (unfold q'; destruct (_ || _); lia).
  assert (2 ^ 53 <= q' * 2 ^ e) as Hres.
  { assert (2 ^ 53 <= 2 ^ 52 * 2 ^ e).
    { rewrite <- Hsplit. apply Z.pow_le_mono_r; lia. }
    nia. }
  assert (Z.abs z = a) as Habs by done.
  destruct (decide (0 < z)).
  - rewrite Z.sgn_pos by lia. lia.
  - rewrite Z.sgn_neg by lia. lia.
Qed.

Lemma nearest_double_eq_safe c a :
  0 <= a < 2 ^ 53 -> nearest_double c = a -> c = a.
Proof.
  intros Ha Hc. destruct (decide (Z.abs c < 2 ^ 53)) as [Hs|Hl].
  - by rewrite nearest_double_safe in Hc.
  - pose proof (nearest_double_large c ltac:(lia)) as H. rewrite Hc in H. lia.
Qed.

Lemma shortest_at_safe a p c :
  0 <= a < 2 ^ 53 -> shortest_at a p = Some c -> c = a.
Proof.
  intros Ha. unfold shortest_at.
  destruct (nearest_double (a / p * p) =? a) eqn:E1;
    destruct (nearest_double (a / p * p + p) =? a) eqn:E2;
    try apply Z.eqb_eq in E1; try apply Z.eqb_eq in E2;
    try apply (nearest_double_eq_safe _ _ Ha) in E1;
    try apply (nearest_double_eq_safe _ _ Ha) in E2.
  - repeat destruct (_ <? _); try destruct (Z.even _); intros [= <-]; lia.
  - intros [= <-]. lia.
  - intros [= <-]. lia.
  - done.
Qed.

Lemma shortest_from_safe fuel : forall a p,
  0 <= a < 2 ^ 53 -> shortest_from fuel a p = a.
Proof.
  induction fuel as [|fuel IH]; intros a p Ha; [done|].
  cbn [shortest_from].
  destruct (shortest_at a p) as [c|] eqn:E.
  - by eapply shortest_at_safe.
  - destruct (p <=? 1); [done|]. by apply IH.
Qed.

Lemma Number_toString_safe z :
  Z.abs z < 2 ^ 53 -> Number_toString z = FormatInt z.
Proof.
  intros Hz. unfold Number_toString, FormatInt.
  rewrite shortest_from_safe by lia.
  destruct (z <? 0) eqn:E.
  - apply Z.ltb_lt in E. by rewrite Z.abs_neq by lia.
  - apply Z.ltb_ge in E. by rewrite Z.abs_eq by lia.
Qed.

Lemma digits_value_FormatUint n :
  0 <= n <= maxUint64 -> digits_value 0 (FormatUint n) = Some n.
Proof.
  intros Hn. pose proof (ParseUint_FormatUint n Hn) as H.
  by apply ParseUint_value in H as (_ & H & _).
Qed.

Lemma integer_literal_FormatInt z :
  is_int64 z -> integer_literal (FormatInt z) = Some z.
Proof.
  unfold is_int64, minInt64, maxInt64, FormatInt. intros Hz.
  destruct (z <? 0) eqn:E.
  - apply Z.ltb_lt in E. cbn [integer_literal Ascii.eqb Bool.eqb andb].
    rewrite digits_value_FormatUint by (unfold maxUint64; lia).
    pose proof (format_digits_starts 20 (- z) EmptyString
                  ltac:(lia) ltac:(left; lia)) as Hs.
    unfold FormatUint in *.
    destruct (format_digits 20 (- z) EmptyString); [done|].
    cbn. f_equal. lia.
  - apply Z.ltb_ge in E.
    pose proof (digits_value_FormatUint z ltac:(unfold maxUint64; lia)) as Hv.
    pose proof (format_digits_starts 20 z EmptyString E ltac:(left; lia)) as Hs.
    unfold FormatUint in *.
    destruct (format_digits 20 z EmptyString) as [|c s]; [done|].
    destruct Hs as [d Hd]. unfold integer_literal.
    assert (Ascii.eqb c "-" = false) as ->; [|done].
    apply Ascii.eqb_neq. intros ->. discriminate Hd.
Qed.

(** X8. An id below 2^53 in absolute value survives both tests of
    test_precision.js: written into the JSON text as a number, read by
    [JSON.parse] and printed with [toString()], it is the original text
    again; written as a string it is too. *)
Theorem safe_id_through_number (z : Z) :
  Z.abs z < 2 ^ 53 ->
  id_through_number (String_ z) = Some (String_ z) /\
  id_through_string (String_ z) = Some (String_ z).
Proof.
  intros Hz. split; [|done].
  unfold id_through_number, JSON_parse_number, String_.
  rewrite integer_literal_FormatInt
    by (unfold is_int64, minInt64, maxInt64; lia).
  cbn [fmap option_fmap option_map].
  by rewrite nearest_double_safe, Number_toString_safe.
Qed.

Lemma safe_id_through_number_witness :
  Z.abs 9007199254740991 < 2 ^ 53 /\
  id_through_number "9007199254740991" = Some "9007199254740991".
Proof.
  assert (Z.abs 9007199254740991 < 2 ^ 53) as H by (cbn; lia).
  split; [exact H|]. exact (proj1 (safe_id_through_number _ H)).
Defined.

End PrecisionFacts.

(* ===================================================================== *)
(** * 11. More on the ranking: failures, order, and the caller            *)
(* ===================================================================== *)

Module RankingMoreFacts.
Import Ranking Search RankingFacts Lqa.

Local Open Scope Q_scope.

(** ** Lists *)

Lemma sort_desc_sorted_id {A} (d : list (Q * A)) :
  StronglySorted key_ge d -> sort_desc d = d.
Proof.
  induction 1 as [|x d Hd IH Hx]; [done|].
  cbn [sort_desc]. rewrite IH.
  destruct d as [|y d]; [done|]. cbn [insert_desc].
  apply Forall_cons in Hx as [Hxy _]. unfold key_ge in Hxy.
  by rewrite (proj2 (Qle_bool_iff _ _) Hxy).
Qed.

Lemma sorted_map_keyed (l : list result) :
  StronglySorted score_ge l -> StronglySorted key_ge (map keyed l).
Proof.
  induction 1 as [|x l Hl IH Hx]; [constructor|].
  cbn [map]. constructor; [done|].
  apply Forall_map. eapply Forall_impl; [exact Hx|]. done.
Qed.

Lemma StronglySorted_lookup_lt {A} (R : relation A) (l : list A) i j x y :
  StronglySorted R l -> (i < j)%nat ->
  l !! i = Some x -> l !! j = Some y -> R x y.
Proof.
  intros Hs. revert i j. induction Hs as [|z l Hl IH Hz]; intros i j Hij.
  - by rewrite lookup_nil.
  - destruct j as [|j]; [lia|]. destruct i as [|i]; cbn.
    + intros [= ->] Hy. rewrite Forall_forall in Hz. apply Hz.
      by eapply list_elem_of_lookup_2.
    + apply IH. lia.
Qed.


Section MoreFacts.
Variable calculate_relevance : result -> string -> py Q.
Variable calculate_decay : value -> py Q.
Variable utcnow : nat -> Z.
Variable query : string.

Local Abbreviation process_one :=
  (process_one calculate_relevance calculate_decay utcnow).
Local Abbreviation process_from :=
  (process_from calculate_relevance calculate_decay utcnow).
Local Abbreviation process_search_results :=
  (process_search_results calculate_relevance calculate_decay utcnow).
Local Abbreviation decay_argument := (decay_argument utcnow).
Local Abbreviation scored_as :=
  (scored_as calculate_relevance calculate_decay utcnow query).
Local Abbreviation scored_from :=
  (scored_from calculate_relevance calculate_decay utcnow query).
Local Abbreviation fails_with :=
  (fails_with calculate_relevance calculate_decay utcnow query).
Local Abbreviation helpers_return :=
  (helpers_return calculate_relevance calculate_decay utcnow query).

(** ** Which exception leaves the call *)

Lemma helpers_return_inr i r :
  helpers_return i r <-> exists p, process_one i r query = inr p.
Proof.
  split.
  - intros (rel & dec & Hrel & Hdec). eexists.
    apply (process_one_inr calculate_relevance calculate_decay utcnow).
    by exists rel, dec.
  - intros [p (rel & dec & Hrel & Hdec & _)%process_one_inr].
    by exists rel, dec.
Qed.

Lemma process_from_inl_first i rs e :
  process_from i rs query = inl e <->
  exists j r,
    rs !! j = Some r /\ fails_with (i + j)%nat r e /\
    forall j' r', (j' < j)%nat -> rs !! j' = Some r' ->
                  helpers_return (i + j')%nat r'.
Proof.
  revert i. induction rs as [|r rs IH]; intros i;
    cbn [Ranking.process_from].
  - split; [done|]. by intros (j & r & Hj & _).
  - destruct (process_one i r query) as [e'|p] eqn:E1; cbn [bind].
    + apply process_one_inl in E1. split.
      * intros [= ->]. exists 0%nat, r. rewrite Nat.add_0_r.
        split; [done|]. split; [done|]. intros; lia.
      * intros (j & r' & Hj & Hf & Hbefore).
        destruct j as [|j].
        -- injection Hj as <-. rewrite Nat.add_0_r in Hf.
           apply process_one_inl in E1, Hf. congruence.
        -- exfalso. pose proof (Hbefore 0%nat r ltac:(lia) eq_refl) as H.
           rewrite Nat.add_0_r in H. apply helpers_return_inr in H as [p Hp].
           apply process_one_inl in E1. congruence.
    + destruct (process_from (S i) rs query) as [e'|ps] eqn:E2; cbn [bind].
      * split.
        -- intros [= ->]. apply IH in E2 as (j & r' & Hj & Hf & Hbefore).
           exists (S j), r'. split; [done|].
           rewrite Nat.add_succ_r. split; [done|].
           intros j' r'' Hlt Hj'. destruct j' as [|j'].
           ++ injection Hj' as <-. rewrite Nat.add_0_r.
              apply helpers_return_inr. by exists p.
           ++ rewrite Nat.add_succ_r. apply Hbefore; [lia|done].
        -- intros (j2 & r2 & Hj2 & Hf2 & Hbefore2).
           destruct j2 as [|j2].
           ++ injection Hj2 as <-. rewrite Nat.add_0_r in Hf2.
              apply process_one_inl in Hf2. congruence.
           ++ assert (process_from (S i) rs query = inl e) as E;
                [|congruence].
              apply IH. exists j2, r2. split; [done|].
              rewrite Nat.add_succ_r in Hf2. split; [done|].
              intros j' r'' Hlt Hj'.
              specialize (Hbefore2 (S j') r'' ltac:(lia) Hj').
              by rewrite Nat.add_succ_r in Hbefore2.
      * split; [done|]. intros (j2 & r2 & Hj2 & Hf2 & Hbefore2). exfalso.
        destruct j2 as [|j2].
        -- injection Hj2 as <-. rewrite Nat.add_0_r in Hf2.
           apply process_one_inl in Hf2. congruence.
        -- assert (process_from (S i) rs query = inl e) as E; [|congruence].
           apply IH. exists j2, r2. split; [done|].
           rewrite Nat.add_succ_r in Hf2. split; [done|].
           intros j' r'' Hlt Hj'.
           specialize (Hbefore2 (S j') r'' ltac:(lia) Hj').
           by rewrite Nat.add_succ_r in Hbefore2.
Qed.

(** X9. The call raises [e] exactly when [e] is what a helper raises on
    the first hit on which a helper raises: [calculate_relevance] on
    that hit, or [calculate_decay] after [calculate_relevance]
    returned, both helpers having returned on all earlier hits.  The
    sort never raises. *)
Theorem first_failure_aborts (results : list result) (e : exn) :
  process_search_results results query = inl e <->
  exists j r,
    results !! j = Some r /\ fails_with j r e /\
    forall j' r', (j' < j)%nat -> results !! j' = Some r' ->
                  helpers_return j' r'.
Proof.
  rewrite <- (process_from_inl_first 0 results e).
  unfold Ranking.process_search_results.
  destruct (process_from 0 results query) as [e'|ps] eqn:E; cbn [bind];
    [done|].
  apply (process_from_inr calculate_relevance calculate_decay utcnow) in E.
  unfold list_sort_reverse.
  rewrite (decorate_carries ps
             (scored_from_carries calculate_relevance calculate_decay utcnow
                query _ _ _ E)).
  done.
Qed.

(** ** The order of the output *)

Lemma sorted_higher_first (out : list result) (i j : nat) (x y : result) :
  StronglySorted score_ge out ->
  out !! i = Some x -> out !! j = Some y ->
  score_of y < score_of x -> (i < j)%nat.
Proof.
  intros Hsorted Hi Hj Hlt.
  destruct (decide (i < j)%nat) as [|Hge]; [done|]. exfalso.
  destruct (decide (i = j)) as [->|Hne].
  - rewrite Hi in Hj. injection Hj as ->. by apply Qlt_irrefl in Hlt.
  - pose proof (StronglySorted_lookup_lt score_ge _ j i y x Hsorted
                  ltac:(lia) Hj Hi) as Hle.
    unfold score_ge in Hle. by apply Qlt_not_le in Hlt.
Qed.

(** X10. In the output a hit with a strictly higher [final_score] stands
    strictly before a hit with a lower one, wherever the two stood in
    the input. *)
Theorem higher_score_first (results out : list result) (i j : nat)
    (x y : result) :
  process_search_results results query = inr out ->
  out !! i = Some x -> out !! j = Some y ->
  score_of y < score_of x -> (i < j)%nat.
Proof.
  intros (ps & Hps & ->)%process_search_results_inr Hi Hj Hlt.
  destruct (sort_keyed_spec ps) as (_ & Hsorted & _).
  by eapply sorted_higher_first.
Qed.


(** X11. Ranking is idempotent on its output: sorting the returned list
    again with the same key leaves it as it is. *)
Theorem rerank_unchanged (results out : list result) :
  process_search_results results query = inr out ->
  list_sort_reverse final_score_key out = inr out.
Proof.
  intros (ps & Hps & ->)%process_search_results_inr.
  destruct (sort_keyed_spec ps) as (Hperm & Hsorted & _).
  set (out := map snd (sort_desc (map keyed ps))) in *.
  assert (Forall carries_score out) as Hc.
  { rewrite Hperm. by eapply scored_from_carries. }
  unfold list_sort_reverse. rewrite (decorate_carries out Hc). cbn [bind].
  rewrite (sort_desc_sorted_id (map keyed out)) by by apply sorted_map_keyed.
  unfold ret. f_equal. rewrite map_map. apply map_id.
Qed.





Lemma annotate_same_fields r rel dec : same_fields r (annotate r rel dec).
Proof.
  intros k Hk. unfold score_keys in Hk.
  apply annotate_other; intros ->; apply Hk; set_solver.
Qed.

Lemma scored_from_same_fields i rs ps :
  scored_from i rs ps -> Forall2 same_fields rs ps.
Proof.
  revert i ps. induction rs as [|r rs IH]; intros i [|p ps]; cbn; try done.
  intros [(rel & dec & _ & _ & ->) Hps]. constructor.
  - apply annotate_same_fields.
  - by eapply IH.
Qed.

End MoreFacts.

(** ** The caller *)

Section SearchFacts.
Variable calculate_relevance : result -> string -> py Q.
Variable calculate_decay : value -> py Q.
Variable utcnow : nat -> Z.
Variable vector_search : string -> py (list result).

Local Abbreviation search :=
  (search calculate_relevance calculate_decay utcnow vector_search).

(** X13. When [search] returns with intelligent memory enabled, it also
    returns with it disabled, and the enabled answer holds the same
    hits: as many, each with every field but the three score keys as the
    vector search gave it, in a possibly different order.  An exception
    of the vector search leaves [search] either way. *)
Theorem search_keeps_hits (query : string) :
  (forall on, search true query = inr on ->
     exists hits processed,
       vector_search query = inr hits /\
       search false query = inr {| results := hits |} /\
       Permutation (results on) processed /\
       Forall2 same_fields hits processed /\
       length (results on) = length hits) /\
  (forall e enabled, vector_search query = inl e ->
     Search.search calculate_relevance calculate_decay utcnow vector_search
       enabled query = inl e).
Proof.
  unfold Search.search. split.
  - intros on. destruct (vector_search query) as [e|hits]; cbn [bind]; [done|].
    destruct (process_search_results _ _ _ hits query) as [e|out] eqn:E;
      cbn [bind]; [done|].
    intros [= <-]. cbn [results].
    apply process_search_results_inr in E as (ps & Hps & ->).
    destruct (sort_keyed_spec ps) as (Hperm & _ & _).
    exists hits, ps. split; [done|]. split; [done|]. split; [done|].
    split; [by eapply scored_from_same_fields|].
    rewrite Hperm. by eapply scored_from_length.
  - intros e enabled ->. done.
Qed.
End SearchFacts.

(** ** Concrete runs *)

Lemma higher_score_first_witness :
  process_search_results sample_relevance sample_decay sample_clock
    sample_hits "q" = inr sample_ranking /\
  (score_of (annotate (hit 1 (1 # 2) 500) (1 # 2) 1)
   < score_of (annotate (hit 2 (9 # 10) 500) (9 # 10) 1)) /\
  (0 < 1)%nat.
Proof.
  assert (score_of (annotate (hit 1 (1 # 2) 500) (1 # 2) 1)
          < score_of (annotate (hit 2 (9 # 10) 500) (9 # 10) 1)) as Hlt
    by (by vm_compute).
  split; [exact sample_run|]. split; [exact Hlt|].
  exact (higher_score_first sample_relevance sample_decay sample_clock "q"
           sample_hits sample_ranking 0 1 _ _ sample_run eq_refl eq_refl Hlt).
Defined.


Lemma rerank_unchanged_witness :
  process_search_results sample_relevance sample_decay sample_clock
    sample_hits "q" = inr sample_ranking /\
  list_sort_reverse final_score_key sample_ranking = inr sample_ranking.
Proof.
  split; [exact sample_run|].
  exact (rerank_unchanged sample_relevance sample_decay sample_clock "q"
           sample_hits sample_ranking sample_run).
Defined.

(** ** The legacy configuration *)

Ltac ascii_cases c :=
  destruct c as [[] [] [] [] [] [] [] []]; vm_compute;
  split; intros H;
  first [ discriminate H | by left | by right | reflexivity
        | destruct H as [H|H]; first [discriminate H | reflexivity] ].

Lemma lower_char_t c : lower_char c = "t"%char <-> (c = "t" \/ c = "T")%char.
Proof. ascii_cases c. Qed.

Lemma lower_char_r c : lower_char c = "r"%char <-> (c = "r" \/ c = "R")%char.
Proof. ascii_cases c. Qed.

Lemma lower_char_u c : lower_char c = "u"%char <-> (c = "u" \/ c = "U")%char.
Proof. ascii_cases c. Qed.

Lemma lower_char_e c : lower_char c = "e"%char <-> (c = "e" \/ c = "E")%char.
Proof. ascii_cases c. Qed.

Lemma lower_true (v : string) : lower v = "true"%string <-> spells_true v.
Proof.
  split.
  - destruct v as [|c1 [|c2 [|c3 [|c4 [|c5 v]]]]]; try done.
    cbn [lower]. intros [= H1 H2 H3 H4].
    exists c1, c2, c3, c4. split; [done|].
    by rewrite <- lower_char_t, <- lower_char_r, <- lower_char_u,
      <- lower_char_e.
  - intros (c1 & c2 & c3 & c4 & -> & H1 & H2 & H3 & H4). cbn [lower].
    apply lower_char_t in H1. apply lower_char_r in H2.
    apply lower_char_u in H3. apply lower_char_e in H4. congruence.
Qed.

(** X14. Whenever the legacy mapping yields a configuration, intelligent
    memory is enabled in it exactly when [MEMORY_DECAY_ENABLED] is unset
    or spells "true" in any mix of upper and lower case; every other
    text (such as "1", "yes" or "on") disables it. *)
Theorem legacy_enabled (float : string -> py Q) (env : gmap string string)
    (config : intelligent_memory) :
  legacy_config float env = inr config ->
  (enabled_ config = true <->
   env !! "MEMORY_DECAY_ENABLED"%string = None \/
   exists v, env !! "MEMORY_DECAY_ENABLED"%string = Some v /\ spells_true v).
Proof.
  unfold legacy_config.
  destruct (float (getenv env "MEMORY_DECAY_FORGETTING_RATE" "0.1"))
    as [e|x1]; cbn [bind]; [done|].
  destruct (float (getenv env "MEMORY_DECAY_BASE_RETENTION" "1.0"))
    as [e|x2]; cbn [bind]; [done|].
  destruct (float (getenv env "MEMORY_DECAY_REINFORCEMENT_FACTOR" "0.3"))
    as [e|x3]; cbn [bind]; [done|].
  intros [= <-]. cbn [enabled_]. rewrite String.eqb_eq, lower_true.
  unfold getenv. destruct (env !! "MEMORY_DECAY_ENABLED"%string) as [v|];
    cbn [default].
  - split; [intros H; right; by exists v|].
    intros [[=]|(v' & [= <-] & H)]. done.
  - split; [by left|]. intros _.
    exists "t"%char, "r"%char, "u"%char, "e"%char. naive_solver.
Qed.

Lemma legacy_enabled_witness :
  legacy_config sample_float {[ "MEMORY_DECAY_ENABLED"%string := "True"%string ]}
  = inr {| enabled_ := true; decay_rate := 1 # 10;
           initial_retention := 1; reinforcement_factor := 3 # 10 |} /\
  spells_true "True".
Proof.
  assert (legacy_config sample_float
            {[ "MEMORY_DECAY_ENABLED"%string := "True"%string ]}
          = inr {| enabled_ := true; decay_rate := 1 # 10;
                   initial_retention := 1; reinforcement_factor := 3 # 10 |})
    as Hrun by reflexivity.
  split; [exact Hrun|].
  destruct (proj1 (legacy_enabled _ _ _ Hrun) eq_refl) as [H|(v & Hv & Hs)].
  - discriminate H.
  - rewrite lookup_singleton_eq in Hv. by injection Hv as <-.
Defined.

(** The texts "1" and "yes" switch intelligent memory off. *)
Example legacy_enabled_other_texts :
  enabled_ <$> (match legacy_config sample_float
                        {[ "MEMORY_DECAY_ENABLED"%string := "1"%string ]} with
                | inr c => Some c | inl _ => None end) = Some false /\
  enabled_ <$> (match legacy_config sample_float
                        {[ "MEMORY_DECAY_ENABLED"%string := "yes"%string ]} with
                | inr c => Some c | inl _ => None end) = Some false.
Proof. split; reflexivity. Qed.

(** ** Concrete runs *)


Lemma search_keeps_hits_witness :
  search sample_relevance sample_decay sample_clock
    (fun _ => inr sample_hits) true "q" = inr {| results := sample_ranking |} /\
  search sample_relevance sample_decay sample_clock
    (fun _ => inr sample_hits) false "q" = inr {| results := sample_hits |} /\
  length sample_ranking = length sample_hits.
Proof.
  assert (search sample_relevance sample_decay sample_clock
            (fun _ => inr sample_hits) true "q"
          = inr {| results := sample_ranking |}) as Hon by (by vm_compute).
  destruct (search_keeps_hits sample_relevance sample_decay sample_clock
              (fun _ => inr sample_hits) "q") as [Hkeeps _].
  destruct (Hkeeps _ Hon) as (hits & ps & [= <-] & Hoff & _ & _ & Hlen).
  split; [exact Hon|]. split; [exact Hoff|]. exact Hlen.
Defined.

End RankingMoreFacts.

(* ===================================================================== *)
(** * 12. Paging of the dashboard's memory table                          *)
(* ===================================================================== *)

Module DashboardFacts.
Import Dashboard.

Local Open Scope Z_scope.

Lemma totalPages_spec (total : Z) :
  LIMIT * (totalPages total - 1) < total <= LIMIT * totalPages total.
Proof.
  unfold totalPages, LIMIT.
  pose proof (Z.div_mod (total + (20 - 1)) 20 ltac:(lia)).
  pose proof (Z.mod_pos_bound (total + (20 - 1)) 20 ltac:(lia)).
  lia.
Qed.

(** X15. The pages 1 .. [totalPages] cut the rows 0 .. [total - 1] into
    disjoint windows of [LIMIT] rows: every row is on exactly one of
    these pages.  On a page from 1 on, the Next button is enabled
    exactly when rows exist beyond the page's window, and the Previous
    button exactly when the window does not start at row 0. *)
Theorem pages_cover_rows (total : Z) :
  0 <= total ->
  (forall i, 0 <= i < total ->
     exists page,
       1 <= page <= totalPages total /\ on_page page i /\
       forall page', on_page page' i -> page' = page) /\
  (forall page, 1 <= page ->
     (next_disabled page total = false <-> offset page + LIMIT < total) /\
     (prev_disabled page = false <-> 0 < offset page)).
Proof.
  intros Htotal. pose proof (totalPages_spec total) as Hspec.
  unfold on_page, offset, next_disabled, prev_disabled, LIMIT in *. split.
  - intros i Hi. exists (i / 20 + 1).
    pose proof (Z.div_mod i 20 ltac:(lia)).
    pose proof (Z.mod_pos_bound i 20 ltac:(lia)).
    split; [|split]; [nia|lia|]. intros page' Hp. nia.
  - intros page Hpage. rewrite Z.leb_gt, Z.leb_gt. split; [|lia].
    split; nia.
Qed.

Lemma pages_cover_rows_witness :
  0 <= 45 /\ totalPages 45 = 3 /\ on_page 3 44 /\
  next_disabled 2 45 = false /\ next_disabled 3 45 = true.
Proof.
  assert (0 <= 45) as H by lia.
  destruct (pages_cover_rows 45 H) as [Hrows Hbuttons].
  destruct (Hrows 44 ltac:(lia)) as (page & Hrange & Hon & _).
  split; [exact H|]. split; [reflexivity|].
  split; [unfold on_page, offset, LIMIT; lia|].
  split; [|reflexivity].
  apply (proj1 (Hbuttons 2 ltac:(lia))). unfold offset, LIMIT. lia.
Defined.

(** A missing or zero page is page 1, whose window starts at row 0. *)
Example validate_page_default :
  validate_page None = 1 /\ validate_page (Some 0) = 1 /\
  offset (validate_page None) = 0.
Proof. repeat split. Qed.

End DashboardFacts.
